(** * voxel-io: bit interleaving and de-interleaving (ileave.hpp)

    A shallow embedding of [src/src/ileave.hpp].  Unsigned machine integers
    are integers of [Z] kept in their range; every C++ operation that can
    leave the range (left shifts) has its wrap-around written out. *)

From Stdlib Require Import ZArith List Lia Bool Btauto.
Import ListNotations.

Local Open Scope Z_scope.
Local Open Scope bool_scope.

(** ** Machine integers *)

Module Mach.

(** [uint32_t], [uint64_t] and [size_t] (64-bit) hold values in
    [0, 2^32), [0, 2^64) and [0, 2^64). *)
Definition u32_max : Z := 0xFFFFFFFF.
Definition wrap32 (z : Z) : Z := z mod 2 ^ 32.
Definition wrap64 (z : Z) : Z := z mod 2 ^ 64.

(** [a << s] on a [uint64_t]: the bits shifted beyond bit 63 are lost. *)
Definition shl64 (a s : Z) : Z := wrap64 (Z.shiftl a s).

(** [a + b] on a [size_t]. *)
Definition size_add (a b : Z) : Z := wrap64 (a + b).

End Mach.
Import Mach.

(** ** External helpers

    [intdiv.hpp], [intlog.hpp] and [assert.hpp] are included by
    [ileave.hpp] but are not part of the sources at hand. *)

(** Modelled from the spec: [voxelio::divCeil] of [intdiv.hpp], "a
    ceiling-division function for unsigned integers".  The C++ division is
    undefined for a zero divisor; the results below use it at [0 < y]
    only. *)
Definition divCeil (x y : Z) : Z :=
  x / y + (if x mod y =? 0 then 0 else 1).

(** Modelled from the spec: [voxelio::log2floor] of [intlog.hpp], "a
    floor-log2 function returning the index of the highest set bit, with a
    defined result (conventionally 0) for an input of 0". *)
Definition log2floor (x : Z) : Z := Z.log2 x.

(** Outcome of a call in a debug build: a value, or an aborted run. *)
Inductive outcome (A : Type) : Type :=
| Returned (a : A)
| AssertionFailed.
Arguments Returned {A} a.
Arguments AssertionFailed {A}.

(** Modelled from the spec: [VXIO_DEBUG_ASSERT_LE] of [assert.hpp], "a debug
    build must fail fast via an assertion that aborts execution". *)
Definition VXIO_DEBUG_ASSERT_LE (a b : Z) : outcome unit :=
  if a <=? b then Returned tt else AssertionFailed.

(** Modelled from the spec: [VXIO_DEBUG_ASSERT_UNREACHABLE] of
    [assert.hpp]: reaching it aborts a debug build. *)
Definition VXIO_DEBUG_ASSERT_UNREACHABLE {A : Type} : outcome A :=
  AssertionFailed.

Definition bind {A B : Type} (m : outcome A) (k : A -> outcome B) : outcome B :=
  match m with
  | Returned a => k a
  | AssertionFailed => AssertionFailed
  end.

Notation "m ;; k" := (bind m (fun _ => k))
  (at level 61, right associativity).

(** ** Zero-bit interleaving *)

(** The loop of [ileaveZeros_naive]: [n] iterations remain; the state is
    [(result, input, b_out)]. *)
Fixpoint ileaveZeros_naive_loop (n : nat) (bits result input b_out : Z) : Z :=
  match n with
  | O => result
  | S n' =>
      ileaveZeros_naive_loop n' bits
        (Z.lor result (shl64 (Z.land input 1) b_out))
        (Z.shiftr input 1)
        (size_add b_out (size_add bits 1))
  end.

(** The loop bound [lim] of [ileaveZeros_naive].  At [bits = 2^64 - 1] the
    increment wraps to 0 and the C++ divides by zero; the results on
    [ileaveZeros_lim] and [ileaveZeros_naive] are stated for
    [bits < 2^64 - 1], and [ileaveZeros_naive_run] below keeps the
    failing case. *)
Definition ileaveZeros_lim (bits : Z) : Z :=
  Z.min 32 (divCeil 64 (size_add bits 1)).

Definition ileaveZeros_naive (input bits : Z) : Z :=
  ileaveZeros_naive_loop (Z.to_nat (ileaveZeros_lim bits)) bits 0 input 0.

(** Modelled from the spec: the same [voxelio::divCeil], with the one case
    made explicit in which a C++ integer division has no result, a zero
    divisor. *)
Definition divCeil_checked (x y : Z) : option Z :=
  if y =? 0 then None else Some (divCeil x y).

(** [ileaveZeros_naive] as a run of the C++ function: [None] when computing
    the loop bound divides by zero, which is the case exactly when
    [bits + 1] wraps to 0, i.e. at [bits = 2^64 - 1].  Everywhere else the
    run returns [ileaveZeros_naive input bits]. *)
Definition ileaveZeros_naive_run (input bits : Z) : option Z :=
  match divCeil_checked 64 (size_add bits 1) with
  | None => None
  | Some d =>
      let lim := Z.min 32 d in
      Some (ileaveZeros_naive_loop (Z.to_nat lim) bits 0 input 0)
  end.

(** The inner loop of [duplBits_naive]: [j] runs over
    [out_bits_per_in_bits] iterations, the state is [(result, b_out)]. *)
Fixpoint duplBits_inner (n : nat) (input i : Z) (st : Z * Z) : Z * Z :=
  match n with
  | O => st
  | S n' =>
      let '(result, b_out) := st in
      duplBits_inner n' input i
        (Z.lor result (shl64 (Z.land (Z.shiftr input i) 1) b_out),
         size_add b_out 1)
  end.

(** The outer loop of [duplBits_naive]: [n] iterations remain, [i] is the
    loop counter. *)
Fixpoint duplBits_outer (n : nat) (input out_bits i : Z) (st : Z * Z) : Z * Z :=
  match n with
  | O => st
  | S n' =>
      duplBits_outer n' input out_bits (i + 1)
        (duplBits_inner (Z.to_nat out_bits) input i st)
  end.

Definition duplBits_naive (input out_bits_per_in_bits : Z) : Z :=
  if out_bits_per_in_bits =? 0 then 0
  else
    let lim := divCeil 64 out_bits_per_in_bits in
    fst (duplBits_outer (Z.to_nat lim) input out_bits_per_in_bits 0 (0, 0)).

(** [MASKS[i]] of [ileaveZeros_const<BITS>] and [remIleavedBits_const<BITS>]:
    entry [i] duplicates every bit of the interleaved all-ones word [2^i]
    times. *)
Definition MASKS (BITS i : Z) : Z :=
  duplBits_naive (ileaveZeros_naive u32_max BITS) (2 ^ i).

(** One round of the loop of [ileaveZeros_const<BITS>] at index [i]. *)
Definition ileaveZeros_step (BITS i n : Z) : Z :=
  let shift := BITS * 2 ^ i in
  Z.land (Z.lor n (shl64 n shift)) (MASKS BITS i).

(** [for (int i = start; i != -1; --i)]: called with [k = start + 1], the
    rounds run at [i = k - 1, ..., 0].  ([start] is at least [-1] for every
    stride below 128.) *)
Fixpoint ileaveZeros_rounds (BITS : Z) (k : nat) (n : Z) : Z :=
  match k with
  | O => n
  | S i => ileaveZeros_rounds BITS i (ileaveZeros_step BITS (Z.of_nat i) n)
  end.

(** [ileaveZeros_const<BITS>].  For [BITS >= 128] the C++ loop would start
    at an index below [-1] and is undefined; the results are stated for
    smaller strides. *)
Definition ileaveZeros_const (BITS input : Z) : Z :=
  if BITS =? 0 then input
  else
    let start := 4 - log2floor (Z.shiftr BITS 1) in
    ileaveZeros_rounds BITS (Z.to_nat (start + 1)) input.

(** ** Bitwise de-interleaving *)

(** One round of the loop of [remIleavedBits_const<BITS>] at index [i]. *)
Definition remIleavedBits_step (BITS i input : Z) : Z :=
  let rshift := 2 ^ i * BITS in
  Z.land (Z.lor input (Z.shiftr input rshift)) (MASKS BITS (i + 1)).

(** [for (size_t i = 0; i < iterations; ++i)]: [n] iterations remain. *)
Fixpoint remIleavedBits_rounds (BITS : Z) (n : nat) (i input : Z) : Z :=
  match n with
  | O => input
  | S n' =>
      remIleavedBits_rounds BITS n' (i + 1) (remIleavedBits_step BITS i input)
  end.

(** [remIleavedBits_const<BITS>].  For [BITS >= 128] the [size_t]
    iteration count of the C++ wraps and the loop is undefined; the results
    are stated for smaller strides. *)
Definition remIleavedBits_const (BITS input : Z) : Z :=
  if BITS =? 0 then input
  else
    let iterations := 5 - log2floor (Z.shiftr BITS 1) in
    remIleavedBits_rounds BITS (Z.to_nat iterations) 0
      (Z.land input (MASKS BITS 0)).

(** ** Number interleaving *)

(** The hard-coded [MASKS] table of [ileave2]. *)
Definition ileave2_MASKS (i : Z) : Z :=
  nth (Z.to_nat i)
    [0x5555555555555555; 0x3333333333333333; 0x0F0F0F0F0F0F0F0F;
     0x00FF00FF00FF00FF; 0x0000FFFF0000FFFF] 0.

(** The inner loop of [ileave2],
    [for (size_t i = 4; i != SIZE_MAX; --i)]: called with [k = 5], the
    rounds run at [i = 4, ..., 0]. *)
Fixpoint ileave2_rounds (k : nat) (n : Z) : Z :=
  match k with
  | O => n
  | S i =>
      let i' := Z.of_nat i in
      ileave2_rounds i (Z.land (Z.lor n (shl64 n (2 ^ i'))) (ileave2_MASKS i'))
  end.

(** The outer loop of [ileave2] over [nums = {&hi, &lo}]: [i] is the loop
    counter, [nums] holds the operands still to be processed. *)
Fixpoint ileave2_outer (nums : list Z) (i result : Z) : Z :=
  match nums with
  | [] => result
  | num :: rest =>
      let n := ileave2_rounds 5 num in
      ileave2_outer rest (i + 1) (Z.lor result (shl64 n (1 - i)))
  end.

Definition ileave2 (hi lo : Z) : Z := ileave2_outer [hi; lo] 0 0.

Definition ileave3 (x y z : Z) : Z :=
  Z.lor (Z.lor (shl64 (ileaveZeros_const 2 x) 2) (shl64 (ileaveZeros_const 2 y) 1))
        (ileaveZeros_const 2 z).

(** ** Number de-interleaving *)

(** The array [out[3]] is returned as a triple [(out[0], out[1], out[2])];
    [static_cast<uint32_t>] keeps the low 32 bits. *)
Definition dileave3 (n : Z) : Z * Z * Z :=
  (wrap32 (remIleavedBits_const 2 (Z.shiftr n 2)),
   wrap32 (remIleavedBits_const 2 (Z.shiftr n 1)),
   wrap32 (remIleavedBits_const 2 (Z.shiftr n 0))).

(** ** Byte interleaving *)

(** The loop of [ileaveBytes_const<COUNT>]: [n] iterations remain, the
    state is [(result, bytes)].  The argument [bytes & 0xff] is converted
    to the [uint32_t] parameter of [ileaveZeros_const]. *)
Fixpoint ileaveBytes_loop (COUNT : Z) (n : nat) (i result bytes : Z) : Z :=
  match n with
  | O => result
  | S n' =>
      ileaveBytes_loop COUNT n' (i + 1)
        (Z.lor result
           (shl64 (ileaveZeros_const (COUNT - 1) (wrap32 (Z.land bytes 0xff))) i))
        (Z.shiftr bytes 8)
  end.

Definition ileaveBytes_const (COUNT bytes : Z) : Z :=
  if COUNT =? 0 then 0
  else ileaveBytes_loop COUNT (Z.to_nat COUNT) 0 0 bytes.

(** [ileaveBytes_jmp] in a debug build.  [VXIO_ASSUME(count <= 8)] follows
    the assertion and only tells the optimizer what the assertion has
    already established. *)
Definition ileaveBytes_jmp (bytes count : Z) : outcome Z :=
  VXIO_DEBUG_ASSERT_LE count 8 ;;
  match count with
  | 0 => Returned (ileaveBytes_const 0 bytes)
  | 1 => Returned (ileaveBytes_const 1 bytes)
  | 2 => Returned (ileaveBytes_const 2 bytes)
  | 3 => Returned (ileaveBytes_const 3 bytes)
  | 4 => Returned (ileaveBytes_const 4 bytes)
  | 5 => Returned (ileaveBytes_const 5 bytes)
  | 6 => Returned (ileaveBytes_const 6 bytes)
  | 7 => Returned (ileaveBytes_const 7 bytes)
  | 8 => Returned (ileaveBytes_const 8 bytes)
  | _ => VXIO_DEBUG_ASSERT_UNREACHABLE
  end.

Definition ileaveBytes (bytes count : Z) : outcome Z :=
  ileaveBytes_jmp bytes count.

(** ** Byte de-interleaving *)

(** The loop of [dileaveBytes_const<COUNT>]: [n] iterations remain. *)
Fixpoint dileaveBytes_loop (COUNT : Z) (n : nat) (i result ileaved : Z) : Z :=
  match n with
  | O => result
  | S n' =>
      let result := Z.lor result (remIleavedBits_const (COUNT - 1) (Z.shiftr ileaved i)) in
      let result := shl64 result 8 in
      dileaveBytes_loop COUNT n' (i + 1) result ileaved
  end.

Definition dileaveBytes_const (COUNT ileaved : Z) : Z :=
  if COUNT =? 0 then 0
  else dileaveBytes_loop COUNT (Z.to_nat COUNT) 0 0 ileaved.

(** [dileaveBytes_jmp] in a debug build, as [ileaveBytes_jmp]. *)
Definition dileaveBytes_jmp (bytes count : Z) : outcome Z :=
  VXIO_DEBUG_ASSERT_LE count 8 ;;
  match count with
  | 0 => Returned (dileaveBytes_const 0 bytes)
  | 1 => Returned (dileaveBytes_const 1 bytes)
  | 2 => Returned (dileaveBytes_const 2 bytes)
  | 3 => Returned (dileaveBytes_const 3 bytes)
  | 4 => Returned (dileaveBytes_const 4 bytes)
  | 5 => Returned (dileaveBytes_const 5 bytes)
  | 6 => Returned (dileaveBytes_const 6 bytes)
  | 7 => Returned (dileaveBytes_const 7 bytes)
  | 8 => Returned (dileaveBytes_const 8 bytes)
  | _ => VXIO_DEBUG_ASSERT_UNREACHABLE
  end.

Definition dileave_bytes (bytes count : Z) : outcome Z :=
  dileaveBytes_jmp bytes count.

(** ** The naive counterparts

    The reference implementations of [namespace detail] that the fast
    routines above are meant to agree with. *)

(** The loop of [remIleavedBits_naive]: [n] iterations remain, [i] is the
    loop counter, [bits] the already incremented parameter; the state is
    [(result, input, b_out)]. *)
Fixpoint remIleavedBits_naive_loop (n : nat) (bits i : Z) (st : Z * Z * Z)
  : Z * Z * Z :=
  match n with
  | O => st
  | S n' =>
      let '(result, input, b_out) := st in
      let '(result, b_out) :=
        if i mod bits =? 0
        then (Z.lor result (shl64 (Z.land input 1) b_out), size_add b_out 1)
        else (result, b_out) in
      remIleavedBits_naive_loop n' bits (i + 1)
        (result, Z.shiftr input 1, b_out)
  end.

(** [remIleavedBits_naive].  At [bits = 2^64 - 1] the increment wraps to 0
    and the C++ computes [i % 0]; the results are stated for
    [bits < 2^64 - 1]. *)
Definition remIleavedBits_naive (input bits : Z) : Z :=
  let bits := size_add bits 1 in
  fst (fst (remIleavedBits_naive_loop 64 bits 0 (0, input, 0))).

Definition ileave3_naive (x y z : Z) : Z :=
  Z.lor (Z.lor (shl64 (ileaveZeros_naive x 2) 2)
               (shl64 (ileaveZeros_naive y 2) 1))
        (ileaveZeros_naive z 2).

Definition dileave3_naive (n : Z) : Z * Z * Z :=
  (wrap32 (remIleavedBits_naive (Z.shiftr n 2) 2),
   wrap32 (remIleavedBits_naive (Z.shiftr n 1) 2),
   wrap32 (remIleavedBits_naive (Z.shiftr n 0) 2)).

(** The loop of [ileaveBytes_naive]: [n] iterations remain.  [count - 1]
    is computed on [size_t]. *)
Fixpoint ileaveBytes_naive_loop (count : Z) (n : nat) (i result bytes : Z) : Z :=
  match n with
  | O => result
  | S n' =>
      ileaveBytes_naive_loop count n' (i + 1)
        (Z.lor result
           (shl64 (ileaveZeros_naive (wrap32 (Z.land bytes 0xff))
                                     (wrap64 (count - 1))) i))
        (Z.shiftr bytes 8)
  end.

(** [ileaveBytes_naive] in a debug build. *)
Definition ileaveBytes_naive (bytes count : Z) : outcome Z :=
  VXIO_DEBUG_ASSERT_LE count 8 ;;
  Returned (ileaveBytes_naive_loop count (Z.to_nat count) 0 0 bytes).

(** ** Specification vocabulary *)

(** A function on words is OR-linear when it maps 0 to 0 and commutes with
    bitwise OR.  Every shift-and-mask routine of the library is of this
    kind, so it is determined by its values on the single-bit words. *)
Definition or_linear (f : Z -> Z) : Prop :=
  f 0 = 0 /\ forall a b, f (Z.lor a b) = Z.lor (f a) (f b).

(** [single_bits_agree w f g] decides that [f] and [g] agree on the words
    [2^0, ..., 2^(w-1)]. *)
Definition single_bits_agree (w : nat) (f g : Z -> Z) : bool :=
  forallb (fun k => f (2 ^ Z.of_nat k) =? g (2 ^ Z.of_nat k)) (seq 0 w).

(** [gather w src x]: the word of width [w] whose bit [p] is bit [k] of [x]
    when [src p = Some k], and 0 when [src p = None]. *)
Fixpoint gather (w : nat) (src : Z -> option Z) (x : Z) : Z :=
  match w with
  | O => 0
  | S p =>
      let b := match src (Z.of_nat p) with
               | Some k => Z.testbit x k
               | None => false
               end in
      Z.lor (gather p src x) (if b then 2 ^ Z.of_nat p else 0)
  end.

(** Bit [k] of [x] as the number 0 or 1. *)
Definition bit (x k : Z) : Z := Z.b2z (Z.testbit x k).

(** Where the bits of [ileaveBytes(bytes, count)] come from: output bit
    [p = j * count + i] is bit [j] of lane [i], i.e. bit [8 * i + j]. *)
Definition ileaveBytes_src (count p : Z) : option Z :=
  if p <? 8 * count then Some (8 * (p mod count) + p / count) else None.

(** Where the bits of [remIleavedBits_const<2>(n >> s)], cut to 32 bits,
    come from. *)
Definition dileave3_src (s p : Z) : option Z :=
  if 3 * p + s <? 64 then Some (3 * p + s) else None.

(** Where the bits of a 32-bit word interleaved with stride 1 come from:
    the even output positions [p] carry input bit [p / 2]. *)
Definition interleave1_src (p : Z) : option Z :=
  if Z.even p then Some (p / 2) else None.

(** Equality test on the triples returned by [dileave3]. *)
Definition triple_eqb (a b : Z * Z * Z) : bool :=
  let '(a0, a1, a2) := a in
  let '(b0, b1, b2) := b in
  (a0 =? b0) && (a1 =? b1) && (a2 =? b2).

(** Bitwise OR of two triples, component by component. *)
Definition triple_lor (a b : Z * Z * Z) : Z * Z * Z :=
  let '(a0, a1, a2) := a in
  let '(b0, b1, b2) := b in
  (Z.lor a0 b0, Z.lor a1 b1, Z.lor a2 b2).

(** The triple [(adg, beh, cfi)] read off a word whose low nine bits are
    [abcdefghi], [a] being bit 8 and [i] bit 0. *)
Definition nine_bit_axes (n : Z) : Z * Z * Z :=
  (4 * bit n 8 + 2 * bit n 5 + bit n 2,
   4 * bit n 7 + 2 * bit n 4 + bit n 1,
   4 * bit n 6 + 2 * bit n 3 + bit n 0).

(** Where the bits of [dileave_bytes(ileaveBytes(bytes, count), count)]
    come from: output byte [B] in [1..count] holds lane [count - B]. *)
Definition byte_roundtrip_src (count p : Z) : option Z :=
  if (8 <=? p) && (p / 8 <=? count)
  then Some (8 * (count - p / 8) + p mod 8)
  else None.

(** [strides_agree w f g] decides that the stride-indexed families [f] and
    [g] agree on the single-bit words of width [w] for every stride
    0..63. *)
Definition strides_agree (w : nat) (f g : Z -> Z -> Z) : bool :=
  forallb (fun b => single_bits_agree w (f (Z.of_nat b)) (g (Z.of_nat b)))
          (seq 0 64).

(** * Proofs *)

(** ** Bits of words *)

Lemma testbit_high (w x p : Z) :
  0 <= w -> 0 <= x < 2 ^ w -> w <= p -> Z.testbit x p = false.
Proof.
  intros Hw Hx Hp.
  rewrite <- (Z.mod_small x (2 ^ w)) by assumption.
  now apply Z.mod_pow2_bits_high.
Qed.

Lemma testbit_mod_pow2 (x w p : Z) :
  0 <= w -> Z.testbit (x mod 2 ^ w) p = (p <? w) && Z.testbit x p.
Proof.
  intros Hw. destruct (Z.ltb_spec p w) as [Hlt | Hge].
  - destruct (Z.ltb_spec p 0) as [Hneg | Hpos].
    + now rewrite !Z.testbit_neg_r.
    + now rewrite Z.mod_pow2_bits_low.
  - now rewrite Z.mod_pow2_bits_high.
Qed.

Lemma testbit_wrap64 (x p : Z) :
  Z.testbit (wrap64 x) p = (p <? 64) && Z.testbit x p.
Proof. unfold wrap64. now rewrite testbit_mod_pow2. Qed.

Lemma testbit_shl64 (a s p : Z) :
  0 <= p -> Z.testbit (shl64 a s) p = (p <? 64) && Z.testbit a (p - s).
Proof.
  intros Hp. unfold shl64. now rewrite testbit_wrap64, Z.shiftl_spec.
Qed.

Lemma testbit_land_1 (a p : Z) :
  Z.testbit (Z.land a 1) p = (p =? 0) && Z.testbit a 0.
Proof.
  destruct (Z.eqb_spec p 0) as [-> | Hne].
  - now rewrite Z.land_spec, andb_true_r.
  - destruct (Z.ltb_spec p 0) as [Hneg | Hpos].
    + now rewrite Z.testbit_neg_r.
    + rewrite Z.land_spec.
      replace (Z.testbit 1 p) with false; [apply andb_false_r |].
      symmetry. apply (testbit_high 1); lia.
Qed.

Lemma wrap64_range (x : Z) : 0 <= wrap64 x < 2 ^ 64.
Proof. unfold wrap64. apply Z.mod_pos_bound. lia. Qed.

Lemma split_top_bit (w : nat) (x : Z) :
  0 <= x < 2 ^ Z.of_nat (S w) ->
  x = Z.lor (x mod 2 ^ Z.of_nat w)
            (if Z.testbit x (Z.of_nat w) then 2 ^ Z.of_nat w else 0).
Proof.
  intros Hx. apply Z.bits_inj'. intros p Hp.
  rewrite Z.lor_spec, testbit_mod_pow2 by lia.
  destruct (Z.ltb_spec p (Z.of_nat w)) as [Hlt | Hge]; cbn [andb].
  - destruct (Z.testbit x (Z.of_nat w)).
    + rewrite Z.pow2_bits_false by lia. now rewrite orb_false_r.
    + now rewrite Z.bits_0, orb_false_r.
  - destruct (Z.eq_dec p (Z.of_nat w)) as [-> | Hne].
    + destruct (Z.testbit x (Z.of_nat w)).
      * now rewrite Z.pow2_bits_true by lia.
      * now rewrite Z.bits_0.
    + rewrite (testbit_high (Z.of_nat (S w)) x p) by lia.
      destruct (Z.testbit x (Z.of_nat w)).
      * now rewrite Z.pow2_bits_false by lia.
      * now rewrite Z.bits_0.
Qed.

(** ** OR-linear functions *)

Section OrLinear.

Variables f g : Z -> Z.
Hypothesis Hf : or_linear f.
Hypothesis Hg : or_linear g.

Lemma or_linear_lor : or_linear (fun x => Z.lor (f x) (g x)).
Proof.
  destruct Hf as [f0 fl], Hg as [g0 gl]. split.
  - now rewrite f0, g0.
  - intros a b. rewrite fl, gl. apply Z.bits_inj'. intros p _.
    rewrite !Z.lor_spec. btauto.
Qed.

Lemma or_linear_compose : or_linear (fun x => f (g x)).
Proof.
  destruct Hf as [f0 fl], Hg as [g0 gl]. split.
  - now rewrite g0, f0.
  - intros a b. now rewrite gl, fl.
Qed.

Lemma or_linear_land (m : Z) : or_linear (fun x => Z.land (f x) m).
Proof.
  destruct Hf as [f0 fl]. split.
  - now rewrite f0.
  - intros a b. rewrite fl. apply Z.land_lor_distr_l.
Qed.

Lemma or_linear_shiftl (s : Z) : or_linear (fun x => Z.shiftl (f x) s).
Proof.
  destruct Hf as [f0 fl]. split.
  - rewrite f0. apply Z.shiftl_0_l.
  - intros a b. rewrite fl. apply Z.shiftl_lor.
Qed.

Lemma or_linear_shiftr (s : Z) : or_linear (fun x => Z.shiftr (f x) s).
Proof.
  destruct Hf as [f0 fl]. split.
  - rewrite f0. apply Z.shiftr_0_l.
  - intros a b. rewrite fl. apply Z.shiftr_lor.
Qed.

Lemma or_linear_mod_pow2 (w : Z) :
  0 <= w -> or_linear (fun x => f x mod 2 ^ w).
Proof.
  intros Hw. destruct Hf as [f0 fl]. split.
  - now rewrite f0.
  - intros a b. rewrite fl, <- !Z.land_ones by assumption.
    apply Z.land_lor_distr_l.
Qed.

(** Two OR-linear functions that agree on the single-bit words of a width
    agree on every word of that width. *)
Lemma or_linear_ext (w : nat) :
  (forall k, (k < w)%nat -> f (2 ^ Z.of_nat k) = g (2 ^ Z.of_nat k)) ->
  forall x, 0 <= x < 2 ^ Z.of_nat w -> f x = g x.
Proof.
  destruct Hf as [f0 fl], Hg as [g0 gl].
  induction w as [| w' IH]; intros Hsingle x Hx.
  - change (2 ^ Z.of_nat 0) with 1 in Hx.
    assert (x = 0) as -> by lia. now rewrite f0, g0.
  - rewrite (split_top_bit w' x Hx), fl, gl. f_equal.
    + apply IH; [intros k Hk; apply Hsingle; lia |].
      apply Z.mod_pos_bound. lia.
    + destruct (Z.testbit x (Z.of_nat w')).
      * apply Hsingle. lia.
      * now rewrite f0, g0.
Qed.

End OrLinear.

Lemma or_linear_id : or_linear (fun x => x).
Proof. now split. Qed.

Lemma or_linear_zero : or_linear (fun _ => 0).
Proof. now split. Qed.

Lemma or_linear_wrap64 (f : Z -> Z) :
  or_linear f -> or_linear (fun x => wrap64 (f x)).
Proof. intros Hf. now apply or_linear_mod_pow2. Qed.

Lemma or_linear_wrap32 (f : Z -> Z) :
  or_linear f -> or_linear (fun x => wrap32 (f x)).
Proof. intros Hf. now apply or_linear_mod_pow2. Qed.

Lemma or_linear_shl64 (f : Z -> Z) (s : Z) :
  or_linear f -> or_linear (fun x => shl64 (f x) s).
Proof.
  intros Hf. unfold shl64.
  apply (or_linear_wrap64 (fun x => Z.shiftl (f x) s)).
  now apply or_linear_shiftl.
Qed.

Lemma single_bits_agree_spec (w : nat) (f g : Z -> Z) :
  single_bits_agree w f g = true ->
  forall k, (k < w)%nat -> f (2 ^ Z.of_nat k) = g (2 ^ Z.of_nat k).
Proof.
  unfold single_bits_agree. rewrite forallb_forall. intros Hall k Hk.
  apply Z.eqb_eq, Hall, in_seq. lia.
Qed.

(** The proof principle used for every fixed-stride routine: OR-linearity
    plus a finite check on the single-bit words. *)
Lemma or_linear_check (w : nat) (f g : Z -> Z) :
  or_linear f -> or_linear g -> single_bits_agree w f g = true ->
  forall x, 0 <= x < 2 ^ Z.of_nat w -> f x = g x.
Proof.
  intros Hf Hg Hchk. apply or_linear_ext; try assumption.
  now apply single_bits_agree_spec.
Qed.

(** Decomposes a goal [or_linear (fun x => ...)] along the shape of the
    body; the match is syntactic, nothing is unfolded. *)
Ltac or_linear_step :=
  lazymatch goal with
  | H : or_linear ?f |- or_linear ?f => exact H
  | |- or_linear (fun x => x) => exact or_linear_id
  | |- or_linear (fun _ => 0) => exact or_linear_zero
  | |- or_linear (fun x => Z.lor (@?a x) (@?b x)) => apply (or_linear_lor a b)
  | |- or_linear (fun x => Z.land (@?a x) ?m) => apply (or_linear_land a)
  | |- or_linear (fun x => shl64 (@?a x) ?s) => apply (or_linear_shl64 a)
  | |- or_linear (fun x => wrap64 (@?a x)) => apply (or_linear_wrap64 a)
  | |- or_linear (fun x => wrap32 (@?a x)) => apply (or_linear_wrap32 a)
  | |- or_linear (fun x => Z.shiftr (@?a x) ?s) => apply (or_linear_shiftr a)
  | |- or_linear (fun x => Z.shiftl (@?a x) ?s) => apply (or_linear_shiftl a)
  end.

Ltac or_linear_tac := repeat or_linear_step.

(** ** OR-linearity of the library's routines *)

Lemma ileaveZeros_naive_loop_linear (bits : Z) (n : nat) :
  forall (b_out : Z) (r inp : Z -> Z),
    or_linear r -> or_linear inp ->
    or_linear (fun x => ileaveZeros_naive_loop n bits (r x) (inp x) b_out).
Proof.
  induction n as [| n IH]; intros b_out r inp Hr Hinp; cbn [ileaveZeros_naive_loop].
  - assumption.
  - apply (IH _ (fun x => Z.lor (r x) (shl64 (Z.land (inp x) 1) b_out))
                (fun x => Z.shiftr (inp x) 1)); or_linear_tac.
Qed.

Lemma ileaveZeros_naive_linear (bits : Z) :
  or_linear (fun x => ileaveZeros_naive x bits).
Proof.
  unfold ileaveZeros_naive.
  apply (ileaveZeros_naive_loop_linear bits _ 0 (fun _ => 0) (fun x => x));
    or_linear_tac.
Qed.

Lemma ileaveZeros_rounds_linear (BITS : Z) (k : nat) :
  forall f : Z -> Z,
    or_linear f -> or_linear (fun x => ileaveZeros_rounds BITS k (f x)).
Proof.
  induction k as [| i IH]; intros f Hf; cbn [ileaveZeros_rounds].
  - assumption.
  - apply (IH (fun x => ileaveZeros_step BITS (Z.of_nat i) (f x))).
    unfold ileaveZeros_step. or_linear_tac.
Qed.

Lemma ileaveZeros_const_linear (BITS : Z) (f : Z -> Z) :
  or_linear f -> or_linear (fun x => ileaveZeros_const BITS (f x)).
Proof.
  intros Hf. unfold ileaveZeros_const. destruct (BITS =? 0).
  - assumption.
  - now apply ileaveZeros_rounds_linear.
Qed.

Lemma remIleavedBits_rounds_linear (BITS : Z) (n : nat) :
  forall (i : Z) (f : Z -> Z),
    or_linear f -> or_linear (fun x => remIleavedBits_rounds BITS n i (f x)).
Proof.
  induction n as [| n IH]; intros i f Hf; cbn [remIleavedBits_rounds].
  - assumption.
  - apply (IH (i + 1) (fun x => remIleavedBits_step BITS i (f x))).
    unfold remIleavedBits_step. or_linear_tac.
Qed.

Lemma remIleavedBits_const_linear (BITS : Z) (f : Z -> Z) :
  or_linear f -> or_linear (fun x => remIleavedBits_const BITS (f x)).
Proof.
  intros Hf. unfold remIleavedBits_const. destruct (BITS =? 0).
  - assumption.
  - apply (remIleavedBits_rounds_linear BITS _ 0
             (fun x => Z.land (f x) (MASKS BITS 0))).
    or_linear_tac.
Qed.

Lemma ileave2_rounds_linear (k : nat) :
  forall f : Z -> Z, or_linear f -> or_linear (fun x => ileave2_rounds k (f x)).
Proof.
  induction k as [| i IH]; intros f Hf; cbn [ileave2_rounds].
  - assumption.
  - apply (IH (fun x => Z.land (Z.lor (f x) (shl64 (f x) (2 ^ Z.of_nat i)))
                              (ileave2_MASKS (Z.of_nat i)))).
    or_linear_tac.
Qed.

Lemma ileaveBytes_loop_linear (COUNT : Z) (n : nat) :
  forall (i : Z) (r b : Z -> Z),
    or_linear r -> or_linear b ->
    or_linear (fun x => ileaveBytes_loop COUNT n i (r x) (b x)).
Proof.
  induction n as [| n IH]; intros i r b Hr Hb; cbn [ileaveBytes_loop].
  - assumption.
  - apply (IH (i + 1)
             (fun x => Z.lor (r x)
                         (shl64 (ileaveZeros_const (COUNT - 1)
                                   (wrap32 (Z.land (b x) 255))) i))
             (fun x => Z.shiftr (b x) 8)); or_linear_tac.
    apply (ileaveZeros_const_linear (COUNT - 1)
             (fun x => wrap32 (Z.land (b x) 255))).
    or_linear_tac.
Qed.

Lemma ileaveBytes_const_linear (COUNT : Z) :
  or_linear (ileaveBytes_const COUNT).
Proof.
  unfold ileaveBytes_const. destruct (COUNT =? 0).
  - apply or_linear_zero.
  - apply (ileaveBytes_loop_linear COUNT _ 0 (fun _ => 0) (fun x => x));
      or_linear_tac.
Qed.

(** ** Bits of [gather] *)

Lemma testbit_gather (src : Z -> option Z) (x : Z) (w : nat) :
  forall p, 0 <= p ->
    Z.testbit (gather w src x) p =
    (p <? Z.of_nat w) &&
    match src p with Some k => Z.testbit x k | None => false end.
Proof.
  induction w as [| w IH]; intros p Hp; cbn [gather].
  - rewrite Z.bits_0. destruct (Z.ltb_spec p (Z.of_nat 0)); [lia | reflexivity].
  - rewrite Z.lor_spec, IH by assumption.
    destruct (Z.eq_dec p (Z.of_nat w)) as [-> | Hne].
    + rewrite Z.ltb_irrefl. cbn [andb orb].
      destruct (Z.ltb_spec (Z.of_nat w) (Z.of_nat (S w))); [| lia].
      cbn [andb].
      destruct (match src (Z.of_nat w) with
                | Some k => Z.testbit x k
                | None => false
                end).
      * now rewrite Z.pow2_bits_true by lia.
      * now rewrite Z.bits_0.
    + replace (Z.testbit (if match src (Z.of_nat w) with
                             | Some k => Z.testbit x k
                             | None => false
                             end then 2 ^ Z.of_nat w else 0) p) with false.
      * rewrite orb_false_r. f_equal.
        destruct (Z.ltb_spec p (Z.of_nat w)), (Z.ltb_spec p (Z.of_nat (S w)));
          lia || reflexivity.
      * destruct (match src (Z.of_nat w) with
                  | Some k => Z.testbit x k
                  | None => false
                  end).
        -- now rewrite Z.pow2_bits_false by lia.
        -- now rewrite Z.bits_0.
Qed.

Lemma gather_linear (w : nat) (src : Z -> option Z) :
  or_linear (gather w src).
Proof.
  split.
  - apply Z.bits_inj'. intros p Hp. rewrite testbit_gather, Z.bits_0 by assumption.
    destruct (src p); [rewrite Z.bits_0 |]; apply andb_false_r.
  - intros a b. apply Z.bits_inj'. intros p Hp.
    rewrite Z.lor_spec, !testbit_gather by assumption.
    destruct (src p); [rewrite Z.lor_spec |]; btauto.
Qed.

(** [or_linear_tac] extended by the routines of the library. *)
Ltac or_linear_lib :=
  repeat first
    [ or_linear_step
    | lazymatch goal with
      | |- or_linear (fun x => ileaveZeros_const ?B (@?a x)) =>
          apply (ileaveZeros_const_linear B a)
      | |- or_linear (fun x => remIleavedBits_const ?B (@?a x)) =>
          apply (remIleavedBits_const_linear B a)
      | |- or_linear (fun x => ileaveZeros_naive x ?b) =>
          apply (ileaveZeros_naive_linear b)
      | |- or_linear (fun x => ileave2_rounds ?k (@?a x)) =>
          apply (ileave2_rounds_linear k a)
      | |- or_linear (gather ?w ?src) => apply gather_linear
      | |- or_linear (ileaveBytes_const ?c) => apply ileaveBytes_const_linear
      end ].

(** ** Bits of [ileaveZeros_naive] *)

Lemma divCeil_bound (x s : Z) :
  0 <= x -> 0 < s -> (divCeil x s - 1) * s < x <= divCeil x s * s.
Proof.
  intros Hx Hs. unfold divCeil.
  pose proof (Z.div_mod x s ltac:(lia)) as Hdm.
  pose proof (Z.mod_pos_bound x s Hs) as Hm.
  destruct (Z.eqb_spec (x mod s) 0) as [H0 | Hn0]; nia.
Qed.

Lemma ileaveZeros_lim_bound (bits : Z) :
  0 <= bits < 2 ^ 64 - 1 ->
  0 < ileaveZeros_lim bits <= 32 /\
  (ileaveZeros_lim bits - 1) * (bits + 1) < 64.
Proof.
  intros Hb. unfold ileaveZeros_lim, size_add, wrap64.
  rewrite Z.mod_small by lia.
  assert (Hs : 0 < bits + 1) by lia.
  pose proof (divCeil_bound 64 (bits + 1) ltac:(lia) Hs) as Hd.
  revert Hs Hd. generalize (bits + 1). intros s Hs.
  generalize (divCeil 64 s). intros d Hd.
  assert (0 < d) by nia.
  split; [lia |].
  assert (Z.min 32 d <= d) by lia.
  nia.
Qed.

(** Loop invariant of [ileaveZeros_naive]: after the remaining [n]
    iterations, started at output position [b_out], the result holds what
    it held before plus bit [k] of [input] at position [b_out + k * s]. *)
Lemma ileaveZeros_naive_loop_bits (bits : Z) (n : nat) :
  let s := size_add bits 1 in
  0 < s ->
  forall result input b_out,
    0 <= b_out -> b_out + Z.of_nat n * s < 64 + s ->
    forall p, 0 <= p ->
      Z.testbit (ileaveZeros_naive_loop n bits result input b_out) p = true <->
      Z.testbit result p = true \/
      exists k, 0 <= k < Z.of_nat n /\ p = b_out + k * s /\
                Z.testbit input k = true.
Proof.
  intros s Hs. induction n as [| n IH]; intros result input b_out Hb Hfit p Hp;
    cbn [ileaveZeros_naive_loop].
  - split; [now left | intros [H | (k & Hk & _)]; [assumption | lia]].
  - fold s.
    assert (Hb' : 0 <= size_add b_out s) by apply wrap64_range.
    assert (Hfit' : size_add b_out s + Z.of_nat n * s < 64 + s).
    { destruct n as [| n'].
      - unfold size_add, wrap64.
        pose proof (Z.mod_le (b_out + s) (2 ^ 64)) as Hle. lia.
      - unfold size_add, wrap64. rewrite Z.mod_small; nia. }
    rewrite (IH _ _ _ Hb' Hfit' p Hp).
    rewrite Z.lor_spec, orb_true_iff, testbit_shl64, testbit_land_1 by assumption.
    rewrite !andb_true_iff, Z.ltb_lt, Z.eqb_eq.
    split.
    + intros [[Hres | (Hlt & Hpos & Hbit)] | (k & Hk & Hpk & Hbit)].
      * now left.
      * right. exists 0. repeat split; try lia; assumption.
      * right. exists (k + 1).
        assert (size_add b_out s = b_out + s) as Heq.
        { unfold size_add, wrap64. rewrite Z.mod_small; nia. }
        rewrite Z.shiftr_spec in Hbit by lia.
        repeat split; try lia; assumption.
    + intros [Hres | (k & Hk & Hpk & Hbit)].
      * now left; left.
      * destruct (Z.eq_dec k 0) as [-> | Hk0].
        -- left; right. repeat split; try nia; assumption.
        -- right. exists (k - 1).
           assert (size_add b_out s = b_out + s) as Heq.
           { unfold size_add, wrap64. rewrite Z.mod_small; nia. }
           rewrite Z.shiftr_spec by lia.
           replace (k - 1 + 1) with k by lia.
           repeat split; try lia; assumption.
Qed.

(** Bit [p] of [ileaveZeros_naive input bits] is set exactly when [p] is
    the position [k * (bits + 1)] of a set bit [k] of [input] below the
    loop bound. *)
Lemma ileaveZeros_naive_bits (input bits p : Z) :
  0 <= bits < 2 ^ 64 - 1 -> 0 <= p ->
  Z.testbit (ileaveZeros_naive input bits) p = true <->
  exists k, 0 <= k < ileaveZeros_lim bits /\ p = k * (bits + 1) /\
            Z.testbit input k = true.
Proof.
  intros Hb Hp. unfold ileaveZeros_naive.
  destruct (ileaveZeros_lim_bound bits Hb) as [Hlim Hfit].
  assert (Hs : size_add bits 1 = bits + 1).
  { unfold size_add, wrap64. apply Z.mod_small. lia. }
  rewrite ileaveZeros_naive_loop_bits; rewrite ?Hs, ?Z2Nat.id; try lia.
  rewrite Z.bits_0. split.
  - intros [H | H]; [discriminate | ].
    destruct H as (k & Hk & Hpk & Hbit). exists k. repeat split; try lia; assumption.
  - intros (k & Hk & Hpk & Hbit). right. exists k. repeat split; try lia; assumption.
Qed.

(** ** Finite checks *)

Lemma forallb_below (P : Z -> bool) (N : nat) :
  forallb (fun n => P (Z.of_nat n)) (seq 0 N) = true ->
  forall n, 0 <= n < Z.of_nat N -> P n = true.
Proof.
  rewrite forallb_forall. intros Hall n Hn.
  rewrite <- (Z2Nat.id n) by lia. apply Hall, in_seq. lia.
Qed.

Lemma supported_stride (BITS : Z) :
  In BITS [1; 2; 4; 8; 16] ->
  BITS = 1 \/ BITS = 2 \/ BITS = 4 \/ BITS = 8 \/ BITS = 16.
Proof. cbn [In]. intuition auto. Qed.

(** * The zero-bit interleaver *)

(** Where the increment [bits + 1] does not wrap, the word computed by
    [ileaveZeros_naive] carries input bit [k] at bit [k * (bits + 1)] for
    every [k] below [min(32, ceil(64 / (bits + 1)))] and no other bit, and
    [bits = 0] returns the input. *)
Lemma ileaveZeros_naive_correct (input bits : Z) :
  0 <= input < 2 ^ 32 ->
  0 <= bits < 2 ^ 64 - 1 ->
  let lim := Z.min 32 (divCeil 64 (bits + 1)) in
  let r := ileaveZeros_naive input bits in
  (forall k, 0 <= k < lim ->
     Z.testbit r (k * (bits + 1)) = Z.testbit input k) /\
  (forall p, 0 <= p ->
     (forall k, 0 <= k < lim -> p <> k * (bits + 1)) ->
     Z.testbit r p = false) /\
  (bits = 0 -> r = input).
Proof.
  intros Hin Hb lim r.
  assert (Hlim : ileaveZeros_lim bits = lim).
  { unfold ileaveZeros_lim, lim, size_add, wrap64.
    now rewrite Z.mod_small by lia. }
  repeat split.
  - intros k Hk. apply eq_true_iff_eq. unfold r.
    rewrite ileaveZeros_naive_bits by nia. rewrite Hlim. split.
    + intros (k' & Hk' & Heq & Hbit).
      assert (k = k') as -> by nia. assumption.
    + intros Hbit. now exists k.
  - intros p Hp Hother. apply not_true_is_false. unfold r.
    rewrite ileaveZeros_naive_bits by assumption. rewrite Hlim.
    intros (k & Hk & Heq & _). exact (Hother k Hk Heq).
  - intros ->. apply Z.bits_inj'. intros p Hp. apply eq_true_iff_eq. unfold r.
    rewrite ileaveZeros_naive_bits by lia.
    change (ileaveZeros_lim 0) with 32. split.
    + intros (k & Hk & Heq & Hbit). now replace p with k by lia.
    + intros Hbit. exists p. repeat split; try lia; try assumption.
      destruct (Z.lt_ge_cases p 32) as [Hlt | Hge]; [assumption |].
      rewrite (testbit_high 32 input p) in Hbit by lia. discriminate.
Qed.

Lemma ileaveZeros_naive_run_defined (input bits : Z) :
  0 <= bits < 2 ^ 64 - 1 ->
  ileaveZeros_naive_run input bits = Some (ileaveZeros_naive input bits).
Proof.
  intros Hb. unfold ileaveZeros_naive_run, divCeil_checked.
  assert (Hs : size_add bits 1 = bits + 1).
  { unfold size_add, wrap64. apply Z.mod_small. lia. }
  destruct (Z.eqb_spec (size_add bits 1) 0) as [H0 | _]; [lia |].
  reflexivity.
Qed.

(** C6, counterexample.  The stride [bits = 2^64 - 1] is a [size_t] value
    and [k = 0] is below the claimed bound [min(32, ceil(64 / 2^64)) = 1],
    but [bits + 1] wraps to 0 and the loop bound divides by zero: the call
    returns nothing, so no output word carries input bit 0 at bit 0. *)
Lemma ileaveZeros_naive_counterexample :
  0 <= 1 < 2 ^ 32 /\
  0 <= 18446744073709551615 < 2 ^ 64 /\
  0 <= 0 < Z.min 32 (divCeil 64 (18446744073709551615 + 1)) /\
  ileaveZeros_naive_run 1 18446744073709551615 = None /\
  ~ (exists r,
       ileaveZeros_naive_run 1 18446744073709551615 = Some r /\
       Z.testbit r (0 * (18446744073709551615 + 1)) = Z.testbit 1 0).
Proof.
  split; [lia | split; [lia | split; [vm_compute; split; congruence |]]].
  assert (Hrun : ileaveZeros_naive_run 1 18446744073709551615 = None)
    by (vm_compute; reflexivity).
  split; [exact Hrun |].
  intros (r & Hr & _). rewrite Hrun in Hr. discriminate.
Qed.

(** C6, amended.  For a 32-bit [input] and every stride [bits] below
    [2^64 - 1] (every [size_t] whose increment does not wrap),
    [ileaveZeros_naive(input, bits)] returns a word that carries input bit
    [k] at output bit [k * (bits + 1)] for every [k] below
    [min(32, ceil(64 / (bits + 1)))]; every other output bit is 0, so the
    input bits at or beyond that bound are dropped; and [bits = 0] returns
    the input unchanged. *)
Theorem ileaveZeros_naive_run_correct (input bits : Z) :
  0 <= input < 2 ^ 32 ->
  0 <= bits < 2 ^ 64 - 1 ->
  let lim := Z.min 32 (divCeil 64 (bits + 1)) in
  exists r,
    ileaveZeros_naive_run input bits = Some r /\
    (forall k, 0 <= k < lim ->
       Z.testbit r (k * (bits + 1)) = Z.testbit input k) /\
    (forall p, 0 <= p ->
       (forall k, 0 <= k < lim -> p <> k * (bits + 1)) ->
       Z.testbit r p = false) /\
    (bits = 0 -> r = input).
Proof.
  intros Hin Hb lim. exists (ileaveZeros_naive input bits).
  split; [now apply ileaveZeros_naive_run_defined |].
  exact (ileaveZeros_naive_correct input bits Hin Hb).
Qed.

Lemma ileaveZeros_naive_run_correct_witness :
  0 <= 5 < 2 ^ 32 /\ 0 <= 2 < 2 ^ 64 - 1 /\
  exists r,
    ileaveZeros_naive_run 5 2 = Some r /\
    (forall k, 0 <= k < Z.min 32 (divCeil 64 (2 + 1)) ->
       Z.testbit r (k * (2 + 1)) = Z.testbit 5 k) /\
    (forall p, 0 <= p ->
       (forall k, 0 <= k < Z.min 32 (divCeil 64 (2 + 1)) -> p <> k * (2 + 1)) ->
       Z.testbit r p = false) /\
    (2 = 0 -> r = 5).
Proof.
  split; [lia | split; [lia |]].
  apply (ileaveZeros_naive_run_correct 5 2); lia.
Defined.

(** C4. For every supported stride [BITS] in {1, 2, 4, 8, 16} and every
    32-bit [x], the shift-and-mask routine [ileaveZeros_const<BITS>] returns
    the same word as the reference [ileaveZeros_naive(x, BITS)]. *)
Theorem ileaveZeros_const_eq_naive (BITS x : Z) :
  In BITS [1; 2; 4; 8; 16] ->
  0 <= x < 2 ^ 32 ->
  ileaveZeros_const BITS x = ileaveZeros_naive x BITS.
Proof.
  intros HB Hx.
  apply (or_linear_check 32 (fun x => ileaveZeros_const BITS x)
                            (fun x => ileaveZeros_naive x BITS)).
  - or_linear_lib.
  - or_linear_lib.
  - destruct (supported_stride BITS HB) as [-> | [-> | [-> | [-> | ->]]]];
      vm_compute; reflexivity.
  - exact Hx.
Qed.

Lemma ileaveZeros_const_eq_naive_witness :
  In 2 [1; 2; 4; 8; 16] /\ 0 <= 0xAAAAAAAA < 2 ^ 32 /\
  ileaveZeros_const 2 0xAAAAAAAA = ileaveZeros_naive 0xAAAAAAAA 2.
Proof.
  split; [cbn; auto | split; [lia |]].
  apply (ileaveZeros_const_eq_naive 2 0xAAAAAAAA); [cbn; auto | lia].
Defined.

(** * The interleaved-bit remover *)

(** C1, counterexample.  At stride 2 only the low 22 input bits fit into
    the 64-bit word: bit 22 of the input is lost by the interleaver, so
    removing after inserting does not restore [2^22]. *)
Lemma roundtrip_bits_counterexample :
  In 2 [1; 2; 4; 8; 16] /\ 0 <= 4194304 < 2 ^ 32 /\
  remIleavedBits_const 2 (ileaveZeros_const 2 4194304) <> 4194304.
Proof.
  split; [cbn; auto | split; [lia |]]. vm_compute. discriminate.
Qed.

(** C1, amended.  For every stride [BITS] in {1, 2, 4, 8, 16} and every
    32-bit [x], removing after inserting returns the low
    [L = min(32, ceil(64 / (BITS + 1)))] bits of [x] (32, 22, 13, 8 and 4
    bits); the input is restored whenever it fits into [L] bits, which at
    [BITS = 1] is every 32-bit input. *)
Theorem roundtrip_bits (BITS x : Z) :
  In BITS [1; 2; 4; 8; 16] ->
  0 <= x < 2 ^ 32 ->
  let L := Z.min 32 (divCeil 64 (BITS + 1)) in
  remIleavedBits_const BITS (ileaveZeros_const BITS x) = x mod 2 ^ L /\
  (x < 2 ^ L -> remIleavedBits_const BITS (ileaveZeros_const BITS x) = x) /\
  (BITS = 1 -> remIleavedBits_const BITS (ileaveZeros_const BITS x) = x).
Proof.
  intros HB Hx L.
  assert (HL : 0 <= L).
  { destruct (supported_stride BITS HB) as [-> | [-> | [-> | [-> | ->]]]];
      vm_compute; discriminate. }
  assert (Hmod : remIleavedBits_const BITS (ileaveZeros_const BITS x)
                 = x mod 2 ^ L).
  { apply (or_linear_check 32
             (fun x => remIleavedBits_const BITS (ileaveZeros_const BITS x))
             (fun x => x mod 2 ^ L)).
    - or_linear_lib.
    - apply (or_linear_mod_pow2 (fun x => x)); [apply or_linear_id | exact HL].
    - subst L.
      destruct (supported_stride BITS HB) as [-> | [-> | [-> | [-> | ->]]]];
        vm_compute; reflexivity.
    - exact Hx. }
  repeat split.
  - exact Hmod.
  - intros Hfit. rewrite Hmod. apply Z.mod_small. lia.
  - intros ->. rewrite Hmod. apply Z.mod_small.
    change (Z.min 32 (divCeil 64 (1 + 1))) with 32 in L. subst L. lia.
Qed.

Lemma roundtrip_bits_witness :
  In 2 [1; 2; 4; 8; 16] /\ 0 <= 4194303 < 2 ^ 32 /\
  remIleavedBits_const 2 (ileaveZeros_const 2 4194303)
  = 4194303 mod 2 ^ Z.min 32 (divCeil 64 (2 + 1)) /\
  (4194303 < 2 ^ Z.min 32 (divCeil 64 (2 + 1)) ->
   remIleavedBits_const 2 (ileaveZeros_const 2 4194303) = 4194303) /\
  (2 = 1 -> remIleavedBits_const 2 (ileaveZeros_const 2 4194303) = 4194303).
Proof.
  split; [cbn; auto | split; [lia |]].
  apply (roundtrip_bits 2 4194303); [cbn; auto | lia].
Defined.

(** * Number interleaving *)

Lemma ileave2_rounds_gather (x : Z) :
  0 <= x < 2 ^ 32 -> ileave2_rounds 5 x = gather 64 interleave1_src x.
Proof.
  apply (or_linear_check 32 (fun x => ileave2_rounds 5 x)
                            (gather 64 interleave1_src)).
  - or_linear_lib.
  - or_linear_lib.
  - vm_compute; reflexivity.
Qed.

Lemma testbit_interleave1_even (x k : Z) :
  0 <= k < 32 ->
  Z.testbit (gather 64 interleave1_src x) (2 * k) = Z.testbit x k.
Proof.
  intros Hk. rewrite testbit_gather by lia. unfold interleave1_src.
  rewrite Z.even_mul. cbn [Z.even orb].
  rewrite (Z.mul_comm 2 k), Z.div_mul by lia.
  destruct (Z.ltb_spec (k * 2) (Z.of_nat 64)); [reflexivity | lia].
Qed.

Lemma testbit_interleave1_odd (x k : Z) :
  Z.testbit (gather 64 interleave1_src x) (2 * k - 1) = false.
Proof.
  destruct (Z.lt_ge_cases (2 * k - 1) 0) as [Hneg | Hpos].
  - now apply Z.testbit_neg_r.
  - rewrite testbit_gather by assumption. unfold interleave1_src.
    rewrite Z.even_sub, Z.even_mul. cbn [Z.even orb Bool.eqb].
    apply andb_false_r.
Qed.

Lemma testbit_ileave2 (hi lo p : Z) :
  0 <= hi < 2 ^ 32 -> 0 <= lo < 2 ^ 32 -> 0 <= p < 64 ->
  Z.testbit (ileave2 hi lo) p =
  Z.testbit (gather 64 interleave1_src hi) (p - 1)
  || Z.testbit (gather 64 interleave1_src lo) p.
Proof.
  intros Hhi Hlo Hp. unfold ileave2. cbn [ileave2_outer].
  change (1 - 0) with 1. change (1 - (0 + 1)) with 0.
  rewrite !ileave2_rounds_gather by assumption.
  rewrite !Z.lor_spec, !testbit_shl64, Z.bits_0, Z.sub_0_r by lia.
  destruct (Z.ltb_spec p 64); [reflexivity | lia].
Qed.

(** C7. For 32-bit [hi] and [lo] and every [k < 32], bit [2k] of
    [ileave2(hi, lo)] is bit [k] of [lo] and bit [2k + 1] is bit [k] of
    [hi]; and [ileave2(0b111, 0b000) = 0b101010]. *)
Theorem ileave2_bits (hi lo : Z) :
  0 <= hi < 2 ^ 32 ->
  0 <= lo < 2 ^ 32 ->
  (forall k, 0 <= k < 32 ->
     Z.testbit (ileave2 hi lo) (2 * k) = Z.testbit lo k /\
     Z.testbit (ileave2 hi lo) (2 * k + 1) = Z.testbit hi k) /\
  ileave2 7 0 = 42.
Proof.
  intros Hhi Hlo. split; [| reflexivity].
  intros k Hk. rewrite !testbit_ileave2 by lia. split.
  - now rewrite testbit_interleave1_odd, testbit_interleave1_even.
  - replace (2 * k + 1 - 1) with (2 * k) by lia.
    replace (2 * k + 1) with (2 * (k + 1) - 1) by lia.
    rewrite testbit_interleave1_odd, testbit_interleave1_even by assumption.
    apply orb_false_r.
Qed.

Lemma ileave2_bits_witness :
  0 <= 7 < 2 ^ 32 /\ 0 <= 0 < 2 ^ 32 /\
  (forall k, 0 <= k < 32 ->
     Z.testbit (ileave2 7 0) (2 * k) = Z.testbit 0 k /\
     Z.testbit (ileave2 7 0) (2 * k + 1) = Z.testbit 7 k) /\
  ileave2 7 0 = 42.
Proof.
  split; [lia | split; [lia |]]. apply (ileave2_bits 7 0); lia.
Defined.

(** * Number de-interleaving *)

Lemma dileave3_lane_gather (s n : Z) :
  In s [0; 1; 2] ->
  0 <= n < 2 ^ 64 ->
  wrap32 (remIleavedBits_const 2 (Z.shiftr n s)) = gather 32 (dileave3_src s) n.
Proof.
  intros Hs.
  apply (or_linear_check 64
           (fun n => wrap32 (remIleavedBits_const 2 (Z.shiftr n s)))
           (gather 32 (dileave3_src s))).
  - or_linear_lib.
  - or_linear_lib.
  - cbn [In] in Hs. destruct Hs as [<- | [<- | [<- | []]]];
      vm_compute; reflexivity.
Qed.

Lemma testbit_dileave3_lane (s n k : Z) :
  0 <= s -> 0 <= n < 2 ^ 64 -> 0 <= k ->
  Z.testbit (gather 32 (dileave3_src s) n) k = Z.testbit n (3 * k + s).
Proof.
  intros Hs Hn Hk. rewrite testbit_gather by assumption. unfold dileave3_src.
  destruct (Z.ltb_spec (3 * k + s) 64) as [Hlt | Hge].
  - destruct (Z.ltb_spec k (Z.of_nat 32)); [reflexivity | lia].
  - rewrite (testbit_high 64 n (3 * k + s)) by lia. apply andb_false_r.
Qed.

Lemma dileave3_gather (n : Z) :
  0 <= n < 2 ^ 64 ->
  dileave3 n = (gather 32 (dileave3_src 2) n,
                gather 32 (dileave3_src 1) n,
                gather 32 (dileave3_src 0) n).
Proof.
  intros Hn. unfold dileave3.
  now rewrite !dileave3_lane_gather by (cbn [In]; auto || assumption).
Qed.

(** All 512 nine-bit codes, one by one. *)
Lemma nine_bit_axes_check :
  forallb (fun n => triple_eqb (gather 32 (dileave3_src 2) (Z.of_nat n),
                                gather 32 (dileave3_src 1) (Z.of_nat n),
                                gather 32 (dileave3_src 0) (Z.of_nat n))
                               (nine_bit_axes (Z.of_nat n)))
          (seq 0 512) = true.
Proof. vm_compute. reflexivity. Qed.

Lemma triple_eqb_eq (a b : Z * Z * Z) : triple_eqb a b = true -> a = b.
Proof.
  destruct a as [[a0 a1] a2], b as [[b0 b1] b2]. cbn [triple_eqb].
  rewrite !andb_true_iff, !Z.eqb_eq. now intros [[-> ->] ->].
Qed.

(** C8. [dileave3] de-interleaves with stride 2 at the shift offsets 2, 1
    and 0: bit [k] of the three outputs is bit [3k + 2], [3k + 1] and [3k]
    of the code.  For a code that fits in nine bits, read [abcdefghi] with
    [a] most significant, the outputs are [(adg, beh, cfi)]. *)
Theorem dileave3_axes (n : Z) :
  0 <= n < 2 ^ 64 ->
  let '(x, y, z) := dileave3 n in
  (forall k, 0 <= k ->
     Z.testbit x k = Z.testbit n (3 * k + 2) /\
     Z.testbit y k = Z.testbit n (3 * k + 1) /\
     Z.testbit z k = Z.testbit n (3 * k)) /\
  (n < 2 ^ 9 -> (x, y, z) = nine_bit_axes n).
Proof.
  intros Hn. rewrite dileave3_gather by assumption. split.
  - intros k Hk. rewrite !testbit_dileave3_lane by lia.
    now rewrite Z.add_0_r.
  - intros H9. apply triple_eqb_eq.
    exact (forallb_below
                  (fun n => triple_eqb (gather 32 (dileave3_src 2) n,
                                        gather 32 (dileave3_src 1) n,
                                        gather 32 (dileave3_src 0) n)
                                       (nine_bit_axes n)) 512
                  nine_bit_axes_check n ltac:(lia)).
Qed.

Lemma dileave3_axes_witness :
  0 <= 0x1A5 < 2 ^ 64 /\
  let '(x, y, z) := dileave3 0x1A5 in
  (forall k, 0 <= k ->
     Z.testbit x k = Z.testbit 0x1A5 (3 * k + 2) /\
     Z.testbit y k = Z.testbit 0x1A5 (3 * k + 1) /\
     Z.testbit z k = Z.testbit 0x1A5 (3 * k)) /\
  (0x1A5 < 2 ^ 9 -> (x, y, z) = nine_bit_axes 0x1A5).
Proof. split; [lia |]. apply (dileave3_axes 0x1A5). lia. Defined.

(** * The 3-axis Morton code *)

Lemma dileave3_lane_linear (s : Z) (h : Z -> Z) :
  or_linear h ->
  or_linear (fun m => wrap32 (remIleavedBits_const 2 (Z.shiftr (h m) s))).
Proof.
  intros Hh. apply or_linear_wrap32.
  apply (remIleavedBits_const_linear 2 (fun m => Z.shiftr (h m) s)).
  or_linear_tac.
Qed.

Lemma dileave3_lor (a b : Z) :
  dileave3 (Z.lor a b) = triple_lor (dileave3 a) (dileave3 b).
Proof.
  unfold dileave3, triple_lor.
  pose proof (fun s => proj2 (dileave3_lane_linear s (fun m => m) or_linear_id))
    as Hlor.
  cbv beta in Hlor. now rewrite !Hlor.
Qed.

(** Settles one lane of [dileave3] applied to one shifted, interleaved
    axis: [h] is the axis as [ileave3] places it, [g] the expected lane. *)
Ltac morton3_lane h s g :=
  apply (or_linear_check 21
           (fun x => wrap32 (remIleavedBits_const 2 (Z.shiftr (h x) s))) g);
  [ or_linear_lib | or_linear_lib | vm_compute; reflexivity | assumption ].

Lemma dileave3_of_x (x : Z) :
  0 <= x < 2 ^ 21 ->
  dileave3 (shl64 (ileaveZeros_const 2 x) 2) = (x, 0, 0).
Proof.
  intros Hx. unfold dileave3. repeat apply f_equal2.
  - morton3_lane (fun x => shl64 (ileaveZeros_const 2 x) 2) 2 (fun x : Z => x).
  - morton3_lane (fun x => shl64 (ileaveZeros_const 2 x) 2) 1 (fun _ : Z => 0).
  - morton3_lane (fun x => shl64 (ileaveZeros_const 2 x) 2) 0 (fun _ : Z => 0).
Qed.

Lemma dileave3_of_y (y : Z) :
  0 <= y < 2 ^ 21 ->
  dileave3 (shl64 (ileaveZeros_const 2 y) 1) = (0, y, 0).
Proof.
  intros Hy. unfold dileave3. repeat apply f_equal2.
  - morton3_lane (fun x => shl64 (ileaveZeros_const 2 x) 1) 2 (fun _ : Z => 0).
  - morton3_lane (fun x => shl64 (ileaveZeros_const 2 x) 1) 1 (fun x : Z => x).
  - morton3_lane (fun x => shl64 (ileaveZeros_const 2 x) 1) 0 (fun _ : Z => 0).
Qed.

Lemma dileave3_of_z (z : Z) :
  0 <= z < 2 ^ 21 ->
  dileave3 (ileaveZeros_const 2 z) = (0, 0, z).
Proof.
  intros Hz. unfold dileave3. repeat apply f_equal2.
  - morton3_lane (fun x => ileaveZeros_const 2 x) 2 (fun _ : Z => 0).
  - morton3_lane (fun x => ileaveZeros_const 2 x) 1 (fun _ : Z => 0).
  - morton3_lane (fun x => ileaveZeros_const 2 x) 0 (fun x : Z => x).
Qed.

(** C3. For coordinates [x], [y], [z], each below [2^21], de-interleaving
    the 3-axis Morton code returns exactly [(x, y, z)]. *)
Theorem morton3_roundtrip (x y z : Z) :
  0 <= x < 2 ^ 21 ->
  0 <= y < 2 ^ 21 ->
  0 <= z < 2 ^ 21 ->
  dileave3 (ileave3 x y z) = (x, y, z).
Proof.
  intros Hx Hy Hz. unfold ileave3.
  rewrite !dileave3_lor, dileave3_of_x, dileave3_of_y, dileave3_of_z
    by assumption.
  cbn [triple_lor]. now rewrite !Z.lor_0_r, !Z.lor_0_l.
Qed.

Lemma morton3_roundtrip_witness :
  0 <= 2097151 < 2 ^ 21 /\ 0 <= 1234567 < 2 ^ 21 /\ 0 <= 1 < 2 ^ 21 /\
  dileave3 (ileave3 2097151 1234567 1) = (2097151, 1234567, 1).
Proof.
  split; [lia | split; [lia | split; [lia |]]].
  apply (morton3_roundtrip 2097151 1234567 1); lia.
Defined.

(** * The byte-plane interleaver *)

Lemma lane_count_cases (count : Z) :
  0 <= count <= 8 ->
  In count [0; 1; 2; 3; 4; 5; 6; 7; 8].
Proof. intros Hc. cbn [In]. lia. Qed.

Lemma ileaveBytes_returns (bytes count : Z) :
  0 <= count <= 8 ->
  ileaveBytes bytes count = Returned (ileaveBytes_const count bytes).
Proof.
  intros Hc. pose proof (lane_count_cases count Hc) as Hin. cbn [In] in Hin.
  repeat (destruct Hin as [<- | Hin]; [reflexivity |]). destruct Hin.
Qed.

Lemma dileave_bytes_returns (bytes count : Z) :
  0 <= count <= 8 ->
  dileave_bytes bytes count = Returned (dileaveBytes_const count bytes).
Proof.
  intros Hc. pose proof (lane_count_cases count Hc) as Hin. cbn [In] in Hin.
  repeat (destruct Hin as [<- | Hin]; [reflexivity |]). destruct Hin.
Qed.

Lemma ileaveBytes_const_gather (count bytes : Z) :
  0 <= count <= 8 ->
  0 <= bytes < 2 ^ 64 ->
  ileaveBytes_const count bytes = gather 64 (ileaveBytes_src count) bytes.
Proof.
  intros Hc.
  apply (or_linear_check 64 (ileaveBytes_const count)
                            (gather 64 (ileaveBytes_src count)));
    [or_linear_lib | or_linear_lib |].
  pose proof (lane_count_cases count Hc) as Hin. cbn [In] in Hin.
  repeat (destruct Hin as [<- | Hin]; [vm_compute; reflexivity |]).
  destruct Hin.
Qed.

Lemma ileaveBytes_src_lane (count i j : Z) :
  0 <= i < count -> 0 <= j < 8 ->
  ileaveBytes_src count (j * count + i) = Some (8 * i + j).
Proof.
  intros Hi Hj. unfold ileaveBytes_src.
  destruct (Z.ltb_spec (j * count + i) (8 * count)) as [_ | Hge]; [| nia].
  replace (j * count + i) with (i + j * count) by lia.
  rewrite Z.mod_add, Z.div_add, Z.mod_small, Z.div_small by lia.
  reflexivity.
Qed.

(** C5. For a lane count in 0..8 and a 64-bit [bytes], [ileaveBytes]
    returns a word whose bit [j * count + i] is bit [j] of byte lane [i]
    (bit [8 * i + j] of [bytes]) for every lane [i < count] and every
    [j < 8]; a set output bit is always at such a position. *)
Theorem ileaveBytes_bit_placement (bytes count : Z) :
  0 <= count <= 8 ->
  0 <= bytes < 2 ^ 64 ->
  exists r,
    ileaveBytes bytes count = Returned r /\
    (forall i j, 0 <= i < count -> 0 <= j < 8 ->
       Z.testbit r (j * count + i) = Z.testbit bytes (8 * i + j)) /\
    (forall p, 0 <= p -> Z.testbit r p = true ->
       exists i j, 0 <= i < count /\ 0 <= j < 8 /\ p = j * count + i).
Proof.
  intros Hc Hb. exists (ileaveBytes_const count bytes).
  split; [now apply ileaveBytes_returns |].
  rewrite ileaveBytes_const_gather by assumption. split.
  - intros i j Hi Hj. rewrite testbit_gather by nia.
    rewrite ileaveBytes_src_lane by assumption.
    destruct (Z.ltb_spec (j * count + i) (Z.of_nat 64)); [reflexivity | nia].
  - intros p Hp Hset. rewrite testbit_gather in Hset by assumption.
    apply andb_true_iff in Hset. destruct Hset as [_ Hsrc].
    unfold ileaveBytes_src in Hsrc.
    destruct (Z.ltb_spec p (8 * count)) as [Hlt | Hge]; [| discriminate].
    assert (Hpos : 0 < count) by lia.
    exists (p mod count), (p / count).
    pose proof (Z.mod_pos_bound p count Hpos) as Hmod.
    pose proof (Z.div_mod p count ltac:(lia)) as Hdm.
    repeat split; try lia.
    + apply Z.div_pos; lia.
    + apply Z.div_lt_upper_bound; lia.
Qed.

Lemma ileaveBytes_bit_placement_witness :
  0 <= 3 <= 8 /\ 0 <= 0x030201 < 2 ^ 64 /\
  exists r,
    ileaveBytes 0x030201 3 = Returned r /\
    (forall i j, 0 <= i < 3 -> 0 <= j < 8 ->
       Z.testbit r (j * 3 + i) = Z.testbit 0x030201 (8 * i + j)) /\
    (forall p, 0 <= p -> Z.testbit r p = true ->
       exists i j, 0 <= i < 3 /\ 0 <= j < 8 /\ p = j * 3 + i).
Proof.
  split; [lia | split; [lia |]].
  apply (ileaveBytes_bit_placement 0x030201 3); lia.
Defined.

(** C9. In a debug build, [ileaveBytes] and [dileave_bytes] called with a
    lane count above 8 (9 for one) stop at the assertion and return no
    value; with a lane count in 0..8 no assertion fires and a value is
    returned. *)
Theorem byte_plane_precondition (bytes count : Z) :
  (8 < count ->
     ileaveBytes bytes count = AssertionFailed /\
     dileave_bytes bytes count = AssertionFailed) /\
  (0 <= count <= 8 ->
     (exists r, ileaveBytes bytes count = Returned r) /\
     (exists r, dileave_bytes bytes count = Returned r)) /\
  ileaveBytes bytes 9 = AssertionFailed /\
  dileave_bytes bytes 9 = AssertionFailed.
Proof.
  split; [| split; [| split; reflexivity]].
  - intros Hc. split.
    + unfold ileaveBytes, ileaveBytes_jmp, VXIO_DEBUG_ASSERT_LE.
      destruct (Z.leb_spec count 8); [lia | reflexivity].
    + unfold dileave_bytes, dileaveBytes_jmp, VXIO_DEBUG_ASSERT_LE.
      destruct (Z.leb_spec count 8); [lia | reflexivity].
  - intros Hc. split.
    + exists (ileaveBytes_const count bytes). now apply ileaveBytes_returns.
    + exists (dileaveBytes_const count bytes). now apply dileave_bytes_returns.
Qed.

(** * The byte-plane de-interleaver *)

Lemma shl64_8_low (x : Z) : shl64 x 8 mod 2 ^ 8 = 0.
Proof.
  apply Z.bits_inj'. intros p Hp.
  rewrite testbit_mod_pow2, testbit_shl64, Z.bits_0 by lia.
  destruct (Z.ltb_spec p 8) as [Hlt | Hge]; [| reflexivity].
  rewrite (Z.testbit_neg_r x (p - 8)) by lia. apply andb_false_r.
Qed.

Lemma dileaveBytes_loop_low (COUNT ileaved : Z) (n : nat) :
  forall i result,
    result mod 2 ^ 8 = 0 ->
    dileaveBytes_loop COUNT n i result ileaved mod 2 ^ 8 = 0.
Proof.
  induction n as [| n IH]; intros i result Hres; cbn [dileaveBytes_loop].
  - assumption.
  - apply IH, shl64_8_low.
Qed.

(** C10. For every lane count in 1..8 and every input, the lowest 8 bits
    of [dileave_bytes(input, count)] are zero: the loop shifts the result
    left by 8 after OR-ing in each lane, the last one included. *)
Theorem dileave_bytes_low_byte_zero (input count : Z) :
  1 <= count <= 8 ->
  exists r,
    dileave_bytes input count = Returned r /\
    Z.land r 0xff = 0 /\
    (forall p, 0 <= p < 8 -> Z.testbit r p = false).
Proof.
  intros Hc. exists (dileaveBytes_const count input).
  split; [apply dileave_bytes_returns; lia |].
  assert (Hlow : dileaveBytes_const count input mod 2 ^ 8 = 0).
  { unfold dileaveBytes_const.
    destruct (Z.eqb_spec count 0) as [-> | _]; [reflexivity |].
    apply dileaveBytes_loop_low. reflexivity. }
  split.
  - change 0xff with (Z.ones 8). now rewrite Z.land_ones by lia.
  - intros p Hp.
    rewrite <- (Z.mod_pow2_bits_low _ 8 p) by lia.
    rewrite Hlow. apply Z.bits_0.
Qed.

Lemma dileave_bytes_low_byte_zero_witness :
  1 <= 2 <= 8 /\
  exists r,
    dileave_bytes 9 2 = Returned r /\
    Z.land r 0xff = 0 /\
    (forall p, 0 <= p < 8 -> Z.testbit r p = false).
Proof.
  split; [lia |]. apply (dileave_bytes_low_byte_zero 9 2). lia.
Defined.

(** C2. The byte-plane round trip fails on the code.  The one-lane word
    [bytes = 1] (every lane at index 1 and above is zero) interleaves to 1,
    and de-interleaving 1 with one lane returns [1 << 8 = 256], not 1. *)
Theorem byte_plane_roundtrip_fails :
  Z.shiftr 1 8 = 0 /\
  ileaveBytes 1 1 = Returned 1 /\
  dileave_bytes 1 1 = Returned 256 /\
  bind (ileaveBytes 1 1) (fun r => dileave_bytes r 1) <> Returned 1.
Proof.
  split; [reflexivity |]. split; [vm_compute; reflexivity |].
  split; [vm_compute; reflexivity |]. vm_compute. discriminate.
Qed.

(** * The naive remover *)

Lemma remIleavedBits_naive_loop_linear (bits : Z) (n : nat) :
  forall (i b_out : Z) (r inp : Z -> Z),
    or_linear r -> or_linear inp ->
    or_linear (fun x => fst (fst (remIleavedBits_naive_loop n bits i
                                    (r x, inp x, b_out)))).
Proof.
  induction n as [| n IH]; intros i b_out r inp Hr Hinp;
    cbn [remIleavedBits_naive_loop fst].
  - assumption.
  - destruct (i mod bits =? 0).
    + apply (IH (i + 1) (size_add b_out 1)
               (fun x => Z.lor (r x) (shl64 (Z.land (inp x) 1) b_out))
               (fun x => Z.shiftr (inp x) 1)); or_linear_tac.
    + apply (IH (i + 1) b_out r (fun x => Z.shiftr (inp x) 1)); or_linear_tac.
Qed.

Lemma remIleavedBits_naive_linear (bits : Z) :
  or_linear (fun x => remIleavedBits_naive x bits).
Proof.
  unfold remIleavedBits_naive.
  apply (remIleavedBits_naive_loop_linear _ 64 0 0 (fun _ => 0) (fun x => x));
    or_linear_tac.
Qed.

(** Loop invariant of [remIleavedBits_naive]: at loop counter [i] the next
    output position [b_out] is the number of multiples of [s] below [i];
    the remaining [n] iterations add bit [q * s] of the original input at
    every output position [q >= b_out] with [q * s < i + n]. *)
Lemma remIleavedBits_naive_loop_bits (s : Z) (n : nat) :
  0 < s ->
  forall i result input b_out,
    0 <= i -> i <= b_out * s < i + s -> i + Z.of_nat n <= 64 ->
    forall q, 0 <= q ->
      Z.testbit (fst (fst (remIleavedBits_naive_loop n s i
                             (result, input, b_out)))) q = true <->
      Z.testbit result q = true \/
      (b_out <= q /\ q * s < i + Z.of_nat n /\
       Z.testbit input (q * s - i) = true).
Proof.
  intros Hs. induction n as [| n IH];
    intros i result input b_out Hi Hb Hn q Hq;
    cbn [remIleavedBits_naive_loop fst].
  - split; [now left | intros [H | (H1 & H2 & _)]; [assumption | nia]].
  - destruct (Z.eqb_spec (i mod s) 0) as [Hmod | Hmod].
    + assert (Hbi : b_out * s = i).
      { pose proof (Z.div_mod i s ltac:(lia)) as Hdm. rewrite Hmod in Hdm.
        assert (Hd : 0 <= (b_out - i / s) * s < s) by lia.
        assert (b_out - i / s = 0) by nia. lia. }
      assert (Hbo : size_add b_out 1 = b_out + 1).
      { unfold size_add, wrap64. apply Z.mod_small. nia. }
      rewrite Hbo, IH by nia.
      rewrite Z.lor_spec, orb_true_iff, testbit_shl64, testbit_land_1
        by assumption.
      rewrite !andb_true_iff, Z.ltb_lt, Z.eqb_eq. split.
      * intros [[Hres | (Hlt & Heq & Hbit)] | (Hge & Hlt & Hbit)].
        -- now left.
        -- right. replace (q * s - i) with 0 by nia.
           repeat split; try nia; assumption.
        -- right. rewrite Z.shiftr_spec in Hbit by nia.
           replace (q * s - (i + 1) + 1) with (q * s - i) in Hbit by lia.
           repeat split; try nia; assumption.
      * intros [Hres | (Hge & Hlt & Hbit)]; [now left; left |].
        destruct (Z.eq_dec q b_out) as [-> | Hne].
        -- left; right. replace (b_out * s - i) with 0 in Hbit by lia.
           repeat split; try nia; assumption.
        -- right. rewrite Z.shiftr_spec by nia.
           replace (q * s - (i + 1) + 1) with (q * s - i) by lia.
           repeat split; try nia; assumption.
    + assert (Hbi : i < b_out * s).
      { destruct (Z.eq_dec (b_out * s) i) as [Heq | Hne]; [| lia].
        exfalso. apply Hmod. rewrite <- Heq. apply Z.mod_mul. lia. }
      rewrite IH by nia. split.
      * intros [Hres | (Hge & Hlt & Hbit)]; [now left |].
        right. rewrite Z.shiftr_spec in Hbit by nia.
        replace (q * s - (i + 1) + 1) with (q * s - i) in Hbit by lia.
        repeat split; try nia; assumption.
      * intros [Hres | (Hge & Hlt & Hbit)]; [now left |].
        right. rewrite Z.shiftr_spec by nia.
        replace (q * s - (i + 1) + 1) with (q * s - i) by lia.
        repeat split; try nia; assumption.
Qed.

(** Bit [q] of [remIleavedBits_naive input bits] is set exactly when bit
    [q * (bits + 1)] of the 64-bit window of [input] is. *)
Lemma remIleavedBits_naive_bits (input bits q : Z) :
  0 <= bits < 2 ^ 64 - 1 -> 0 <= q ->
  Z.testbit (remIleavedBits_naive input bits) q = true <->
  q * (bits + 1) < 64 /\ Z.testbit input (q * (bits + 1)) = true.
Proof.
  intros Hb Hq. unfold remIleavedBits_naive.
  assert (Hs : size_add bits 1 = bits + 1).
  { unfold size_add, wrap64. apply Z.mod_small. lia. }
  rewrite Hs, remIleavedBits_naive_loop_bits by lia.
  rewrite Z.bits_0, Z.sub_0_r. change (0 + Z.of_nat 64) with 64. split.
  - intros [H | (_ & H1 & H2)]; [discriminate | now split].
  - intros [H1 H2]. right. repeat split; try lia; assumption.
Qed.

(** X1. For a 64-bit [input] and a stride [bits] whose increment does not
    wrap, bit [k] of [remIleavedBits_naive(input, bits)] is bit
    [k * (bits + 1)] of [input], for every [k]; the result fits in
    [ceil(64 / (bits + 1))] bits, and [bits = 0] returns the input. *)
Theorem remIleavedBits_naive_correct (input bits : Z) :
  0 <= input < 2 ^ 64 ->
  0 <= bits < 2 ^ 64 - 1 ->
  let r := remIleavedBits_naive input bits in
  (forall k, 0 <= k -> Z.testbit r k = Z.testbit input (k * (bits + 1))) /\
  (forall k, divCeil 64 (bits + 1) <= k -> Z.testbit r k = false) /\
  (bits = 0 -> r = input).
Proof.
  intros Hin Hb r.
  assert (Hbit : forall k, 0 <= k ->
                   Z.testbit r k = Z.testbit input (k * (bits + 1))).
  { intros k Hk. apply eq_true_iff_eq. unfold r.
    rewrite remIleavedBits_naive_bits by assumption. split.
    - now intros [_ H].
    - intros H. split; [| assumption].
      destruct (Z.lt_ge_cases (k * (bits + 1)) 64) as [Hlt | Hge];
        [assumption |].
      rewrite (testbit_high 64 input) in H by lia. discriminate. }
  repeat split.
  - exact Hbit.
  - intros k Hk.
    pose proof (divCeil_bound 64 (bits + 1) ltac:(lia) ltac:(lia)) as Hd.
    rewrite Hbit by nia. apply (testbit_high 64); [lia | assumption | nia].
  - intros ->. apply Z.bits_inj'. intros k Hk. rewrite Hbit by assumption.
    f_equal. lia.
Qed.

Lemma remIleavedBits_naive_correct_witness :
  let r := remIleavedBits_naive 21 1 in
  (forall k, 0 <= k -> Z.testbit r k = Z.testbit 21 (k * (1 + 1))) /\
  (forall k, divCeil 64 (1 + 1) <= k -> Z.testbit r k = false) /\
  (1 = 0 -> r = 21).
Proof. apply (remIleavedBits_naive_correct 21 1); lia. Defined.

(** * Every stride below 64 *)

Lemma ileaveZeros_lim_unfold (bits : Z) :
  0 <= bits < 2 ^ 64 - 1 ->
  ileaveZeros_lim bits = Z.min 32 (divCeil 64 (bits + 1)).
Proof.
  intros Hb. unfold ileaveZeros_lim, size_add, wrap64.
  now rewrite Z.mod_small by lia.
Qed.

Lemma wrap32_range (x : Z) : 0 <= wrap32 x < 2 ^ 32.
Proof. unfold wrap32. apply Z.mod_pos_bound. lia. Qed.

Lemma word_bound (w x : Z) :
  0 <= w -> 0 <= x ->
  (forall p, w <= p -> Z.testbit x p = false) -> x < 2 ^ w.
Proof.
  intros Hw Hx Hbits.
  destruct (Z.eq_dec x 0) as [-> | Hne]; [apply Z.pow_pos_nonneg; lia |].
  apply Z.log2_lt_pow2; [lia |].
  destruct (Z.lt_ge_cases (Z.log2 x) w) as [Hlt | Hge]; [assumption |].
  specialize (Hbits _ Hge). rewrite Z.bit_log2 in Hbits by lia. discriminate.
Qed.

Lemma ileaveZeros_naive_loop_nonneg (bits : Z) (n : nat) :
  forall result input b_out,
    0 <= result -> 0 <= ileaveZeros_naive_loop n bits result input b_out.
Proof.
  induction n as [| n IH]; intros result input b_out Hr;
    cbn [ileaveZeros_naive_loop]; [assumption |].
  apply IH, Z.lor_nonneg. split; [assumption | apply wrap64_range].
Qed.

Lemma ileaveZeros_naive_range (input bits : Z) :
  0 <= bits < 2 ^ 64 - 1 ->
  0 <= ileaveZeros_naive input bits < 2 ^ 64.
Proof.
  intros Hb.
  assert (Hnn : 0 <= ileaveZeros_naive input bits).
  { apply ileaveZeros_naive_loop_nonneg. lia. }
  split; [assumption |].
  apply word_bound; [lia | assumption |].
  intros p Hp. apply not_true_is_false.
  rewrite ileaveZeros_naive_bits by lia.
  intros (k & Hk & Heq & _).
  destruct (ileaveZeros_lim_bound bits Hb) as [_ Hfit]. nia.
Qed.

Lemma strides_agree_spec (w : nat) (f g : Z -> Z -> Z) (b : Z) :
  strides_agree w f g = true -> 0 <= b < 64 ->
  single_bits_agree w (f b) (g b) = true.
Proof.
  intros Hall Hb.
  apply (forallb_below (fun b => single_bits_agree w (f b) (g b)) 64 Hall b).
  lia.
Qed.

Lemma ileaveZeros_strides_agree :
  strides_agree 32 ileaveZeros_const (fun b x => ileaveZeros_naive x b) = true.
Proof. vm_compute. reflexivity. Qed.

Lemma remIleavedBits_strides_agree :
  strides_agree 64 remIleavedBits_const (fun b x => remIleavedBits_naive x b)
  = true.
Proof. vm_compute. reflexivity. Qed.

Lemma ileaveZeros_const_naive_agree (BITS x : Z) :
  0 <= BITS < 64 -> 0 <= x < 2 ^ 32 ->
  ileaveZeros_const BITS x = ileaveZeros_naive x BITS.
Proof.
  intros HB.
  apply (or_linear_check 32 (ileaveZeros_const BITS)
                            (fun x => ileaveZeros_naive x BITS)).
  - apply (ileaveZeros_const_linear BITS (fun x => x)), or_linear_id.
  - apply ileaveZeros_naive_linear.
  - exact (strides_agree_spec 32 ileaveZeros_const
             (fun b x => ileaveZeros_naive x b) BITS
             ileaveZeros_strides_agree HB).
Qed.

Lemma remIleavedBits_const_naive_agree (BITS n : Z) :
  0 <= BITS < 64 -> 0 <= n < 2 ^ 64 ->
  remIleavedBits_const BITS n = remIleavedBits_naive n BITS.
Proof.
  intros HB.
  apply (or_linear_check 64 (remIleavedBits_const BITS)
                            (fun x => remIleavedBits_naive x BITS)).
  - apply (remIleavedBits_const_linear BITS (fun x => x)), or_linear_id.
  - apply remIleavedBits_naive_linear.
  - exact (strides_agree_spec 64 remIleavedBits_const
             (fun b x => remIleavedBits_naive x b) BITS
             remIleavedBits_strides_agree HB).
Qed.

Lemma naive_roundtrip_mod (x bits : Z) :
  0 <= bits < 2 ^ 64 - 1 ->
  remIleavedBits_naive (ileaveZeros_naive x bits) bits
  = x mod 2 ^ Z.min 32 (divCeil 64 (bits + 1)).
Proof.
  intros Hb.
  destruct (ileaveZeros_lim_bound bits Hb) as [Hlim Hfit].
  rewrite <- ileaveZeros_lim_unfold by assumption.
  apply Z.bits_inj'. intros k Hk. apply eq_true_iff_eq.
  rewrite remIleavedBits_naive_bits, ileaveZeros_naive_bits by nia.
  rewrite testbit_mod_pow2, andb_true_iff, Z.ltb_lt by lia. split.
  - intros (_ & k' & Hk' & Heq & Hbit).
    assert (k = k') as -> by nia. split; [lia | assumption].
  - intros [Hlt Hbit]. split; [nia |]. exists k. repeat split; try lia.
    assumption.
Qed.

(** X2. The reference round trip, for every stride [bits] below
    [2^64 - 1] (every [size_t] whose increment does not wrap): removing
    after inserting with the naive routines returns the low
    [L = min(32, ceil(64 / (bits + 1)))] bits of the input, and so the
    input itself when it fits into [L] bits. *)
Theorem naive_roundtrip (x bits : Z) :
  0 <= x < 2 ^ 32 ->
  0 <= bits < 2 ^ 64 - 1 ->
  let L := Z.min 32 (divCeil 64 (bits + 1)) in
  remIleavedBits_naive (ileaveZeros_naive x bits) bits = x mod 2 ^ L /\
  (x < 2 ^ L -> remIleavedBits_naive (ileaveZeros_naive x bits) bits = x).
Proof.
  intros Hx Hb L. split.
  - now apply naive_roundtrip_mod.
  - intros Hfit. rewrite naive_roundtrip_mod by assumption.
    apply Z.mod_small. fold L. lia.
Qed.

Lemma naive_roundtrip_witness :
  0 <= 1000 < 2 ^ 32 /\ 0 <= 5 < 2 ^ 64 - 1 /\
  remIleavedBits_naive (ileaveZeros_naive 1000 5) 5
  = 1000 mod 2 ^ Z.min 32 (divCeil 64 (5 + 1)) /\
  (1000 < 2 ^ Z.min 32 (divCeil 64 (5 + 1)) ->
   remIleavedBits_naive (ileaveZeros_naive 1000 5) 5 = 1000).
Proof.
  split; [lia | split; [lia |]]. apply (naive_roundtrip 1000 5); lia.
Defined.

(** X3. The shift-and-mask interleaver is correct for every stride from 0
    to 63, not only for the instantiated ones: on a 32-bit input it
    returns the word of the naive reference, which carries input bit [k]
    at bit [k * (BITS + 1)] for [k] below the bound and fits in 64 bits. *)
Theorem ileaveZeros_const_all_strides (BITS x : Z) :
  0 <= BITS < 64 ->
  0 <= x < 2 ^ 32 ->
  ileaveZeros_const BITS x = ileaveZeros_naive x BITS /\
  (forall k, 0 <= k < Z.min 32 (divCeil 64 (BITS + 1)) ->
     Z.testbit (ileaveZeros_const BITS x) (k * (BITS + 1)) = Z.testbit x k) /\
  0 <= ileaveZeros_const BITS x < 2 ^ 64.
Proof.
  intros HB Hx. rewrite ileaveZeros_const_naive_agree by assumption.
  split; [reflexivity |]. split.
  - intros k Hk. apply eq_true_iff_eq.
    rewrite ileaveZeros_naive_bits by nia.
    rewrite ileaveZeros_lim_unfold by lia. split.
    + intros (k' & Hk' & Heq & Hbit). assert (k = k') as -> by nia.
      assumption.
    + intros Hbit. now exists k.
  - apply ileaveZeros_naive_range. lia.
Qed.

Lemma ileaveZeros_const_all_strides_witness :
  0 <= 7 < 64 /\ 0 <= 0xB5 < 2 ^ 32 /\
  ileaveZeros_const 7 0xB5 = ileaveZeros_naive 0xB5 7 /\
  (forall k, 0 <= k < Z.min 32 (divCeil 64 (7 + 1)) ->
     Z.testbit (ileaveZeros_const 7 0xB5) (k * (7 + 1)) = Z.testbit 0xB5 k) /\
  0 <= ileaveZeros_const 7 0xB5 < 2 ^ 64.
Proof.
  split; [lia | split; [lia |]].
  apply (ileaveZeros_const_all_strides 7 0xB5); lia.
Defined.

(** X4. The shift-and-mask remover is correct for every stride from 0 to
    63 and every 64-bit input, polluted or not: it returns the word of the
    naive reference, whose bit [k] is input bit [k * (BITS + 1)]. *)
Theorem remIleavedBits_const_all_strides (BITS n : Z) :
  0 <= BITS < 64 ->
  0 <= n < 2 ^ 64 ->
  remIleavedBits_const BITS n = remIleavedBits_naive n BITS /\
  (forall k, 0 <= k ->
     Z.testbit (remIleavedBits_const BITS n) k
     = Z.testbit n (k * (BITS + 1))).
Proof.
  intros HB Hn. rewrite remIleavedBits_const_naive_agree by assumption.
  split; [reflexivity |].
  intros k Hk. apply eq_true_iff_eq.
  rewrite remIleavedBits_naive_bits by lia. split.
  - now intros [_ H].
  - intros H. split; [| assumption].
    destruct (Z.lt_ge_cases (k * (BITS + 1)) 64) as [Hlt | Hge];
      [assumption |].
    rewrite (testbit_high 64 n) in H by lia. discriminate.
Qed.

Lemma remIleavedBits_const_all_strides_witness :
  0 <= 3 < 64 /\ 0 <= 0xFFFFFFFFFFFFFFFF < 2 ^ 64 /\
  remIleavedBits_const 3 0xFFFFFFFFFFFFFFFF
  = remIleavedBits_naive 0xFFFFFFFFFFFFFFFF 3 /\
  (forall k, 0 <= k ->
     Z.testbit (remIleavedBits_const 3 0xFFFFFFFFFFFFFFFF) k
     = Z.testbit 0xFFFFFFFFFFFFFFFF (k * (3 + 1))).
Proof.
  split; [lia | split; [lia |]].
  apply (remIleavedBits_const_all_strides 3 0xFFFFFFFFFFFFFFFF); lia.
Defined.

(** X5. The fast round trip, for every stride from 0 to 63: removing after
    inserting returns the low [L = min(32, ceil(64 / (BITS + 1)))] bits of
    a 32-bit input, hence the input itself when it fits into [L] bits. *)
Theorem const_roundtrip_all_strides (BITS x : Z) :
  0 <= BITS < 64 ->
  0 <= x < 2 ^ 32 ->
  let L := Z.min 32 (divCeil 64 (BITS + 1)) in
  remIleavedBits_const BITS (ileaveZeros_const BITS x) = x mod 2 ^ L /\
  (x < 2 ^ L -> remIleavedBits_const BITS (ileaveZeros_const BITS x) = x).
Proof.
  intros HB Hx L.
  assert (Hmod : remIleavedBits_const BITS (ileaveZeros_const BITS x)
                 = x mod 2 ^ L).
  { rewrite ileaveZeros_const_naive_agree by assumption.
    rewrite remIleavedBits_const_naive_agree
      by (assumption || apply ileaveZeros_naive_range; lia).
    apply naive_roundtrip_mod. lia. }
  split; [exact Hmod |].
  intros Hfit. rewrite Hmod. apply Z.mod_small. lia.
Qed.

Lemma const_roundtrip_all_strides_witness :
  0 <= 5 < 64 /\ 0 <= 2047 < 2 ^ 32 /\
  remIleavedBits_const 5 (ileaveZeros_const 5 2047)
  = 2047 mod 2 ^ Z.min 32 (divCeil 64 (5 + 1)) /\
  (2047 < 2 ^ Z.min 32 (divCeil 64 (5 + 1)) ->
   remIleavedBits_const 5 (ileaveZeros_const 5 2047) = 2047).
Proof.
  split; [lia | split; [lia |]].
  apply (const_roundtrip_all_strides 5 2047); lia.
Defined.

(** * The naive coordinate and byte routines *)

(** X6. The 3-axis routines agree with their naive counterparts: the
    Morton code of 32-bit coordinates is the same word, and a 64-bit code
    splits into the same triple. *)
Theorem morton3_naive_agree (x y z n : Z) :
  0 <= x < 2 ^ 32 -> 0 <= y < 2 ^ 32 -> 0 <= z < 2 ^ 32 ->
  0 <= n < 2 ^ 64 ->
  ileave3 x y z = ileave3_naive x y z /\
  dileave3 n = dileave3_naive n.
Proof.
  intros Hx Hy Hz Hn. split.
  - unfold ileave3, ileave3_naive.
    now rewrite !ileaveZeros_const_naive_agree by (assumption || lia).
  - unfold dileave3, dileave3_naive.
    assert (Hshift : forall s, 0 <= s -> 0 <= Z.shiftr n s < 2 ^ 64).
    { intros s Hs. rewrite Z.shiftr_div_pow2 by assumption.
      assert (0 < 2 ^ s) by (apply Z.pow_pos_nonneg; lia).
      split; [apply Z.div_pos; lia |].
      apply Z.div_lt_upper_bound; nia. }
    now rewrite !remIleavedBits_const_naive_agree by (auto with zarith).
Qed.

Lemma morton3_naive_agree_witness :
  0 <= 5 < 2 ^ 32 /\ 0 <= 6 < 2 ^ 32 /\ 0 <= 7 < 2 ^ 32 /\
  0 <= 0x1FF < 2 ^ 64 /\
  ileave3 5 6 7 = ileave3_naive 5 6 7 /\
  dileave3 0x1FF = dileave3_naive 0x1FF.
Proof.
  split; [lia | split; [lia | split; [lia | split; [lia |]]]].
  apply (morton3_naive_agree 5 6 7 0x1FF); lia.
Defined.

Lemma ileaveBytes_loops_agree (count : Z) (n : nat) :
  1 <= count <= 8 ->
  forall i result bytes,
    ileaveBytes_loop count n i result bytes
    = ileaveBytes_naive_loop count n i result bytes.
Proof.
  intros Hc. induction n as [| n IH]; intros i result bytes;
    cbn [ileaveBytes_loop ileaveBytes_naive_loop]; [reflexivity |].
  rewrite IH. do 3 f_equal.
  assert (Hw : wrap64 (count - 1) = count - 1).
  { unfold wrap64. apply Z.mod_small. lia. }
  rewrite Hw. apply ileaveZeros_const_naive_agree; [lia |].
  pose proof (wrap32_range (Z.land bytes 255)). lia.
Qed.

(** X7. The naive byte-plane interleaver is an alternative implementation
    of [ileaveBytes]: for every lane count and every input the two return
    the same outcome, the failed assertion above 8 lanes included. *)
Theorem ileaveBytes_naive_agree (bytes count : Z) :
  0 <= count ->
  ileaveBytes_naive bytes count = ileaveBytes bytes count.
Proof.
  intros Hc. destruct (Z.le_gt_cases count 8) as [Hle | Hgt].
  - rewrite ileaveBytes_returns by lia.
    unfold ileaveBytes_naive, VXIO_DEBUG_ASSERT_LE, ileaveBytes_const.
    destruct (Z.leb_spec count 8); [| lia]. cbn [bind]. f_equal.
    destruct (Z.eqb_spec count 0) as [-> | Hne]; [reflexivity |].
    symmetry. apply ileaveBytes_loops_agree. lia.
  - unfold ileaveBytes_naive, ileaveBytes, ileaveBytes_jmp,
      VXIO_DEBUG_ASSERT_LE.
    destruct (Z.leb_spec count 8); [lia | reflexivity].
Qed.

Lemma ileaveBytes_naive_agree_witness :
  0 <= 3 /\
  ileaveBytes_naive 0x030201 3 = ileaveBytes 0x030201 3.
Proof. split; [lia |]. apply (ileaveBytes_naive_agree 0x030201 3). lia. Defined.

(** * The mask engine *)

(** Inner loop of [duplBits_naive]: [m] copies of input bit [i] are
    written at the output positions [b_out, ..., b_out + m - 1]. *)
Lemma duplBits_inner_spec (input i : Z) (m : nat) :
  0 <= i ->
  forall result b_out,
    0 <= b_out -> b_out + Z.of_nat m <= 64 ->
    snd (duplBits_inner m input i (result, b_out)) = b_out + Z.of_nat m /\
    forall p, 0 <= p ->
      Z.testbit (fst (duplBits_inner m input i (result, b_out))) p = true <->
      Z.testbit result p = true \/
      (b_out <= p < b_out + Z.of_nat m /\ Z.testbit input i = true).
Proof.
  intros Hi. induction m as [| m IH]; intros result b_out Hb Hfit;
    cbn [duplBits_inner fst snd].
  - split; [lia |]. intros p Hp.
    split; [now left | intros [H | [H _]]; [assumption | lia]].
  - assert (Hbo : size_add b_out 1 = b_out + 1).
    { unfold size_add, wrap64. apply Z.mod_small. lia. }
    rewrite Hbo.
    destruct (IH (Z.lor result (shl64 (Z.land (Z.shiftr input i) 1) b_out))
                 (b_out + 1) ltac:(lia) ltac:(lia)) as [Hsnd Hbits].
    split; [lia |]. intros p Hp. rewrite Hbits by assumption.
    rewrite Z.lor_spec, orb_true_iff, testbit_shl64, testbit_land_1
      by assumption.
    rewrite !andb_true_iff, Z.ltb_lt, Z.eqb_eq, Z.shiftr_spec by lia.
    cbn [Z.add]. split.
    + intros [[Hres | (Hlt & Heq & Hbit)] | (Hrange & Hbit)].
      * now left.
      * right. split; [lia | assumption].
      * right. split; [lia | assumption].
    + intros [Hres | (Hrange & Hbit)]; [now left; left |].
      destruct (Z.eq_dec p b_out) as [-> | Hne].
      * left; right. repeat split; try lia; assumption.
      * right. split; [lia | assumption].
Qed.

(** Outer loop of [duplBits_naive]: the [k] iterations from counter [i] on
    fill the output positions [i * n, ..., (i + k) * n - 1], position [p]
    with input bit [p / n]. *)
Lemma duplBits_outer_spec (input n : Z) (k : nat) :
  0 < n ->
  forall i result,
    0 <= i -> (i + Z.of_nat k) * n <= 64 ->
    forall p, 0 <= p ->
      Z.testbit (fst (duplBits_outer k input n i (result, i * n))) p = true <->
      Z.testbit result p = true \/
      (i * n <= p < (i + Z.of_nat k) * n /\ Z.testbit input (p / n) = true).
Proof.
  intros Hn. induction k as [| k IH]; intros i result Hi Hfit p Hp;
    cbn [duplBits_outer fst].
  - split; [now left | intros [H | [H _]]; [assumption | lia]].
  - destruct (duplBits_inner_spec input i (Z.to_nat n) Hi result (i * n)
                ltac:(nia) ltac:(nia)) as [Hsnd Hbits].
    destruct (duplBits_inner (Z.to_nat n) input i (result, i * n))
      as [result' b_out'].
    cbn [fst snd] in Hsnd, Hbits. rewrite Z2Nat.id in Hsnd, Hbits by lia.
    replace b_out' with ((i + 1) * n) by lia.
    rewrite IH by nia. rewrite Hbits by assumption. split.
    + intros [[Hres | (Hrange & Hbit)] | (Hrange & Hbit)].
      * now left.
      * right. split; [nia |].
        replace (p / n) with i; [assumption |].
        apply (Z.div_unique p n i (p - i * n)); lia.
      * right. split; [nia | assumption].
    + intros [Hres | (Hrange & Hbit)]; [now left; left |].
      destruct (Z.lt_ge_cases p ((i + 1) * n)) as [Hlt | Hge].
      * left; right. split; [lia |].
        replace i with (p / n); [assumption |]. symmetry.
        apply (Z.div_unique p n i (p - i * n)); lia.
      * right. split; [nia | assumption].
Qed.

Lemma divCeil_exact (x n : Z) :
  0 < n -> x mod n = 0 -> divCeil x n * n = x.
Proof.
  intros Hn Hmod. unfold divCeil. rewrite Hmod. cbn [Z.eqb].
  pose proof (Z.div_mod x n ltac:(lia)) as Hdm. lia.
Qed.

Lemma duplBits_naive_bits (input n p : Z) :
  0 < n -> 64 mod n = 0 -> 0 <= p ->
  Z.testbit (duplBits_naive input n) p = true <->
  p < 64 /\ Z.testbit input (p / n) = true.
Proof.
  intros Hn Hdiv Hp. unfold duplBits_naive.
  destruct (Z.eqb_spec n 0) as [-> | _]; [lia |].
  pose proof (divCeil_exact 64 n Hn Hdiv) as Hlim.
  assert (Hpos : 0 <= divCeil 64 n) by nia.
  change (0, 0) with (0, 0 * n).
  rewrite duplBits_outer_spec; rewrite ?Z2Nat.id; try lia.
  rewrite Z.bits_0. cbn [Z.add]. rewrite Hlim. split.
  - intros [H | [H1 H2]]; [discriminate | split; [lia | assumption]].
  - intros [H1 H2]. right. split; [lia | assumption].
Qed.

(** X8. [duplBits_naive] with a width [n] that divides 64 repeats every
    input bit [n] times: output bit [p] below 64 is input bit [p / n],
    and no bit is set from 64 on. *)
Theorem duplBits_naive_correct (input n : Z) :
  0 < n -> 64 mod n = 0 ->
  (forall p, 0 <= p < 64 ->
     Z.testbit (duplBits_naive input n) p = Z.testbit input (p / n)) /\
  (forall p, 64 <= p -> Z.testbit (duplBits_naive input n) p = false).
Proof.
  intros Hn Hdiv. split.
  - intros p Hp. apply eq_true_iff_eq.
    rewrite duplBits_naive_bits by lia. split; [now intros [_ H] |].
    intros H. split; [lia | assumption].
  - intros p Hp. apply not_true_is_false.
    rewrite duplBits_naive_bits by lia. intros [H _]. lia.
Qed.

Lemma duplBits_naive_correct_witness :
  0 < 2 /\ 64 mod 2 = 0 /\
  (forall p, 0 <= p < 64 ->
     Z.testbit (duplBits_naive 5 2) p = Z.testbit 5 (p / 2)) /\
  (forall p, 64 <= p -> Z.testbit (duplBits_naive 5 2) p = false).
Proof.
  split; [lia | split; [reflexivity |]].
  apply (duplBits_naive_correct 5 2); [lia | reflexivity].
Defined.

Lemma pow2_divides_64 (i : Z) : 0 <= i <= 6 -> 64 mod 2 ^ i = 0.
Proof.
  intros Hi.
  assert (Hcases : i = 0 \/ i = 1 \/ i = 2 \/ i = 3 \/ i = 4 \/ i = 5 \/ i = 6)
    by lia.
  destruct Hcases as [-> | [-> | [-> | [-> | [-> | [-> | ->]]]]]];
    reflexivity.
Qed.

(** X9. The generated mask table in closed form.  For a stride [BITS] and
    a table index [i], cut the 64 bit positions into blocks of [2^i]:
    [MASKS[i]] has exactly the blocks set whose number is a multiple
    [k * (BITS + 1)] with [k] below [min(32, ceil(64 / (BITS + 1)))], and
    [MASKS[0]] is the interleaved all-ones word. *)
Theorem MASKS_closed_form (BITS i p : Z) :
  0 <= BITS < 2 ^ 64 - 1 ->
  0 <= i <= 5 ->
  0 <= p < 64 ->
  (Z.testbit (MASKS BITS i) p = true <->
   exists k, 0 <= k < Z.min 32 (divCeil 64 (BITS + 1)) /\
             p / 2 ^ i = k * (BITS + 1)) /\
  MASKS BITS 0 = ileaveZeros_naive u32_max BITS.
Proof.
  intros HB Hi Hp.
  assert (Hpow : 0 < 2 ^ i) by (apply Z.pow_pos_nonneg; lia).
  assert (Hdiv : 64 mod 2 ^ i = 0) by (apply pow2_divides_64; lia).
  split.
  - unfold MASKS. rewrite duplBits_naive_bits by lia.
    rewrite ileaveZeros_naive_bits by (assumption || apply Z.div_pos; lia).
    rewrite ileaveZeros_lim_unfold by assumption. split.
    + intros (_ & k & Hk & Heq & _). now exists k.
    + intros (k & Hk & Heq). split; [lia |]. exists k.
      repeat split; try lia.
      unfold u32_max.
      change 0xFFFFFFFF with (Z.ones 32). apply Z.ones_spec_low. lia.
  - unfold MASKS. apply Z.bits_inj'. intros q Hq. apply eq_true_iff_eq.
    rewrite duplBits_naive_bits by (lia || reflexivity).
    change (2 ^ 0) with 1. rewrite Z.div_1_r. split; [now intros [_ H] |].
    intros H. split; [| assumption].
    pose proof (ileaveZeros_naive_range u32_max BITS HB) as Hr.
    destruct (Z.lt_ge_cases q 64) as [Hlt | Hge]; [assumption |].
    rewrite (testbit_high 64 _ q) in H by lia. discriminate.
Qed.

Lemma MASKS_closed_form_witness :
  0 <= 2 < 2 ^ 64 - 1 /\ 0 <= 3 <= 5 /\ 0 <= 24 < 64 /\
  (Z.testbit (MASKS 2 3) 24 = true <->
   exists k, 0 <= k < Z.min 32 (divCeil 64 (2 + 1)) /\
             24 / 2 ^ 3 = k * (2 + 1)) /\
  MASKS 2 0 = ileaveZeros_naive u32_max 2.
Proof.
  split; [lia | split; [lia | split; [lia |]]].
  apply (MASKS_closed_form 2 3 24); lia.
Defined.

(** * Coordinates *)

Lemma ileave2_table (i : Z) : 0 <= i < 5 -> ileave2_MASKS i = MASKS 1 i.
Proof.
  intros Hi.
  assert (Hcases : i = 0 \/ i = 1 \/ i = 2 \/ i = 3 \/ i = 4) by lia.
  destruct Hcases as [-> | [-> | [-> | [-> | ->]]]]; vm_compute; reflexivity.
Qed.

Lemma ileave2_rounds_stride1 (k : nat) :
  (k <= 5)%nat ->
  forall n, ileave2_rounds k n = ileaveZeros_rounds 1 k n.
Proof.
  induction k as [| i IH]; intros Hk n;
    cbn [ileave2_rounds ileaveZeros_rounds]; [reflexivity |].
  rewrite IH by lia. f_equal. unfold ileaveZeros_step.
  rewrite Z.mul_1_l, ileave2_table by lia. reflexivity.
Qed.

Lemma ileave2_rounds_const (n : Z) :
  ileave2_rounds 5 n = ileaveZeros_const 1 n.
Proof.
  unfold ileaveZeros_const. cbn [Z.eqb].
  change (Z.to_nat (4 - log2floor (Z.shiftr 1 1) + 1)) with 5%nat.
  apply ileave2_rounds_stride1. lia.
Qed.

Lemma ileave2_unfold (hi lo : Z) :
  ileave2 hi lo
  = Z.lor (shl64 (ileave2_rounds 5 hi) 1) (shl64 (ileave2_rounds 5 lo) 0).
Proof.
  unfold ileave2. cbn [ileave2_outer].
  change (1 - 0) with 1. change (1 - (0 + 1)) with 0.
  now rewrite Z.lor_0_l.
Qed.

(** X10. [ileave2] is the stride-1 interleaver applied to both operands
    and OR-combined, [hi] shifted left by one; its hard-coded mask table
    is the generated table of stride 1. *)
Theorem ileave2_composition (hi lo : Z) :
  0 <= hi < 2 ^ 32 ->
  0 <= lo < 2 ^ 32 ->
  ileave2 hi lo
  = Z.lor (shl64 (ileaveZeros_const 1 hi) 1) (ileaveZeros_const 1 lo) /\
  (forall i, 0 <= i < 5 -> ileave2_MASKS i = MASKS 1 i).
Proof.
  intros Hhi Hlo. split; [| exact ileave2_table].
  rewrite ileave2_unfold, !ileave2_rounds_const. f_equal.
  unfold shl64. rewrite Z.shiftl_0_r. unfold wrap64. apply Z.mod_small.
  rewrite ileaveZeros_const_naive_agree by lia.
  apply ileaveZeros_naive_range. lia.
Qed.

Lemma ileave2_composition_witness :
  0 <= 7 < 2 ^ 32 /\ 0 <= 0 < 2 ^ 32 /\
  ileave2 7 0
  = Z.lor (shl64 (ileaveZeros_const 1 7) 1) (ileaveZeros_const 1 0) /\
  (forall i, 0 <= i < 5 -> ileave2_MASKS i = MASKS 1 i).
Proof.
  split; [lia | split; [lia |]]. apply (ileave2_composition 7 0); lia.
Defined.

Lemma remove1_linear (s : Z) (h : Z -> Z) :
  or_linear h ->
  or_linear (fun m => remIleavedBits_const 1 (Z.shiftr (h m) s)).
Proof. intros Hh. or_linear_lib. Qed.

(** Settles [remIleavedBits_const<1>((h x) >> s) = g x] on 32-bit [x]. *)
Ltac split2_lane h s g :=
  apply (or_linear_check 32
           (fun x => remIleavedBits_const 1 (Z.shiftr (h x) s)) g);
  [ or_linear_lib | or_linear_lib | vm_compute; reflexivity | assumption ].

Lemma split2 (hi lo : Z) :
  0 <= hi < 2 ^ 32 -> 0 <= lo < 2 ^ 32 ->
  remIleavedBits_const 1 (Z.shiftr (ileave2 hi lo) 0) = lo /\
  remIleavedBits_const 1 (Z.shiftr (ileave2 hi lo) 1) = hi.
Proof.
  intros Hhi Hlo. rewrite ileave2_unfold.
  pose proof (fun s => proj2 (remove1_linear s (fun m => m) or_linear_id))
    as Hlor.
  cbv beta in Hlor. rewrite !Hlor.
  assert (H00 : remIleavedBits_const 1
                  (Z.shiftr (shl64 (ileave2_rounds 5 lo) 0) 0) = lo).
  { split2_lane (fun x => shl64 (ileave2_rounds 5 x) 0) 0 (fun x : Z => x). }
  assert (H01 : remIleavedBits_const 1
                  (Z.shiftr (shl64 (ileave2_rounds 5 lo) 0) 1) = 0).
  { split2_lane (fun x => shl64 (ileave2_rounds 5 x) 0) 1 (fun _ : Z => 0). }
  assert (H10 : remIleavedBits_const 1
                  (Z.shiftr (shl64 (ileave2_rounds 5 hi) 1) 0) = 0).
  { split2_lane (fun x => shl64 (ileave2_rounds 5 x) 1) 0 (fun _ : Z => 0). }
  assert (H11 : remIleavedBits_const 1
                  (Z.shiftr (shl64 (ileave2_rounds 5 hi) 1) 1) = hi).
  { split2_lane (fun x => shl64 (ileave2_rounds 5 x) 1) 1 (fun x : Z => x). }
  rewrite H00, H01, H10, H11. split; [apply Z.lor_0_l | apply Z.lor_0_r].
Qed.

(** X11. A 2-axis Morton code is split by the stride-1 remover: applied to
    the code it returns [lo], applied to the code shifted right by one it
    returns [hi].  Hence [ileave2] is injective on pairs of 32-bit
    values. *)
Theorem ileave2_inverse (hi lo : Z) :
  0 <= hi < 2 ^ 32 ->
  0 <= lo < 2 ^ 32 ->
  remIleavedBits_const 1 (ileave2 hi lo) = lo /\
  remIleavedBits_const 1 (Z.shiftr (ileave2 hi lo) 1) = hi /\
  (forall hi' lo', 0 <= hi' < 2 ^ 32 -> 0 <= lo' < 2 ^ 32 ->
     ileave2 hi lo = ileave2 hi' lo' -> hi = hi' /\ lo = lo').
Proof.
  intros Hhi Hlo. destruct (split2 hi lo Hhi Hlo) as [Hl Hh].
  rewrite Z.shiftr_0_r in Hl.
  split; [exact Hl | split; [exact Hh |]].
  intros hi' lo' Hhi' Hlo' Heq.
  destruct (split2 hi' lo' Hhi' Hlo') as [Hl' Hh'].
  rewrite Z.shiftr_0_r in Hl'. rewrite <- Heq in Hl', Hh'.
  split; congruence.
Qed.

Lemma ileave2_inverse_witness :
  0 <= 0xDEADBEEF < 2 ^ 32 /\ 0 <= 0x12345678 < 2 ^ 32 /\
  remIleavedBits_const 1 (ileave2 0xDEADBEEF 0x12345678) = 0x12345678 /\
  remIleavedBits_const 1 (Z.shiftr (ileave2 0xDEADBEEF 0x12345678) 1)
  = 0xDEADBEEF /\
  (forall hi' lo', 0 <= hi' < 2 ^ 32 -> 0 <= lo' < 2 ^ 32 ->
     ileave2 0xDEADBEEF 0x12345678 = ileave2 hi' lo' ->
     0xDEADBEEF = hi' /\ 0x12345678 = lo').
Proof.
  split; [lia | split; [lia |]].
  apply (ileave2_inverse 0xDEADBEEF 0x12345678); lia.
Defined.

Lemma ileaveZeros_naive_bit_at (x bits k : Z) :
  0 <= bits < 2 ^ 64 - 1 -> 0 <= k < ileaveZeros_lim bits ->
  Z.testbit (ileaveZeros_naive x bits) (k * (bits + 1)) = Z.testbit x k.
Proof.
  intros Hb Hk. apply eq_true_iff_eq.
  rewrite ileaveZeros_naive_bits by nia. split.
  - intros (k' & Hk' & Heq & Hbit). assert (k = k') as -> by nia.
    assumption.
  - intros Hbit. now exists k.
Qed.

Lemma ileaveZeros_naive_bit_off (x bits p : Z) :
  0 <= bits < 2 ^ 64 - 1 -> p mod (bits + 1) <> 0 ->
  Z.testbit (ileaveZeros_naive x bits) p = false.
Proof.
  intros Hb Hmod. destruct (Z.lt_ge_cases p 0) as [Hneg | Hpos].
  - now apply Z.testbit_neg_r.
  - apply not_true_is_false. rewrite ileaveZeros_naive_bits by assumption.
    intros (k & _ & Heq & _). apply Hmod. rewrite Heq. apply Z.mod_mul. lia.
Qed.

Lemma testbit_ileave3 (x y z p : Z) :
  0 <= x < 2 ^ 32 -> 0 <= y < 2 ^ 32 -> 0 <= z < 2 ^ 32 -> 0 <= p < 64 ->
  Z.testbit (ileave3 x y z) p =
  Z.testbit (ileaveZeros_naive x 2) (p - 2)
  || Z.testbit (ileaveZeros_naive y 2) (p - 1)
  || Z.testbit (ileaveZeros_naive z 2) p.
Proof.
  intros Hx Hy Hz Hp. unfold ileave3.
  rewrite !ileaveZeros_const_naive_agree by (assumption || lia).
  rewrite !Z.lor_spec, !testbit_shl64 by lia.
  destruct (Z.ltb_spec p 64); [reflexivity | lia].
Qed.

(** X12. Layout of the 3-axis Morton code of 32-bit coordinates: bit
    [3k + 2] is bit [k] of [x] and bit [3k + 1] is bit [k] of [y] for
    [k < 21]; bit [3k] is bit [k] of [z] for [k < 22].  These positions
    are all 64 bits of the code. *)
Theorem ileave3_layout (x y z : Z) :
  0 <= x < 2 ^ 32 -> 0 <= y < 2 ^ 32 -> 0 <= z < 2 ^ 32 ->
  (forall k, 0 <= k < 21 ->
     Z.testbit (ileave3 x y z) (3 * k + 2) = Z.testbit x k /\
     Z.testbit (ileave3 x y z) (3 * k + 1) = Z.testbit y k) /\
  (forall k, 0 <= k < 22 ->
     Z.testbit (ileave3 x y z) (3 * k) = Z.testbit z k).
Proof.
  intros Hx Hy Hz.
  assert (Hoff : forall v q, q mod 3 <> 0 ->
                   Z.testbit (ileaveZeros_naive v 2) q = false).
  { intros v q Hq. apply ileaveZeros_naive_bit_off; [lia | exact Hq]. }
  assert (Hat : forall v k, 0 <= k < 22 ->
                  Z.testbit (ileaveZeros_naive v 2) (3 * k) = Z.testbit v k).
  { intros v k Hk. replace (3 * k) with (k * (2 + 1)) by lia.
    apply ileaveZeros_naive_bit_at; [lia | exact Hk]. }
  split.
  - intros k Hk. rewrite !testbit_ileave3 by lia. split.
    + replace (3 * k + 2 - 2) with (3 * k) by lia.
      rewrite Hat by lia.
      rewrite (Hoff y), (Hoff z) by (Z.div_mod_to_equations; lia).
      now rewrite !orb_false_r.
    + replace (3 * k + 1 - 1) with (3 * k) by lia.
      rewrite Hat by lia.
      rewrite (Hoff x), (Hoff z) by (Z.div_mod_to_equations; lia).
      now rewrite orb_false_r.
  - intros k Hk. rewrite testbit_ileave3 by lia.
    rewrite Hat by lia.
    rewrite (Hoff x), (Hoff y) by (Z.div_mod_to_equations; lia).
    reflexivity.
Qed.

Lemma ileave3_layout_witness :
  0 <= 5 < 2 ^ 32 /\ 0 <= 6 < 2 ^ 32 /\ 0 <= 0x200000 < 2 ^ 32 /\
  (forall k, 0 <= k < 21 ->
     Z.testbit (ileave3 5 6 0x200000) (3 * k + 2) = Z.testbit 5 k /\
     Z.testbit (ileave3 5 6 0x200000) (3 * k + 1) = Z.testbit 6 k) /\
  (forall k, 0 <= k < 22 ->
     Z.testbit (ileave3 5 6 0x200000) (3 * k) = Z.testbit 0x200000 k).
Proof.
  split; [lia | split; [lia | split; [lia |]]].
  apply (ileave3_layout 5 6 0x200000); lia.
Defined.

(** Settles one lane of [dileave3] on a whole 32-bit axis: [g] is the
    expected lane, the identity cut to the bits that fit. *)
Ltac morton3_lane_wide h s g :=
  apply (or_linear_check 32
           (fun x => wrap32 (remIleavedBits_const 2 (Z.shiftr (h x) s))) g);
  [ or_linear_lib
  | first [ solve [or_linear_lib]
          | apply (or_linear_mod_pow2 (fun x => x));
            [exact or_linear_id | lia] ]
  | vm_compute; reflexivity
  | assumption ].

Lemma dileave3_of_x_wide (x : Z) :
  0 <= x < 2 ^ 32 ->
  dileave3 (shl64 (ileaveZeros_const 2 x) 2) = (x mod 2 ^ 21, 0, 0).
Proof.
  intros Hx. unfold dileave3. apply f_equal2; [apply f_equal2 |].
  - morton3_lane_wide (fun x => shl64 (ileaveZeros_const 2 x) 2) 2
      (fun x : Z => x mod 2 ^ 21).
  - morton3_lane_wide (fun x => shl64 (ileaveZeros_const 2 x) 2) 1
      (fun _ : Z => 0).
  - morton3_lane_wide (fun x => shl64 (ileaveZeros_const 2 x) 2) 0
      (fun _ : Z => 0).
Qed.

Lemma dileave3_of_y_wide (y : Z) :
  0 <= y < 2 ^ 32 ->
  dileave3 (shl64 (ileaveZeros_const 2 y) 1) = (0, y mod 2 ^ 21, 0).
Proof.
  intros Hy. unfold dileave3. apply f_equal2; [apply f_equal2 |].
  - morton3_lane_wide (fun x => shl64 (ileaveZeros_const 2 x) 1) 2
      (fun _ : Z => 0).
  - morton3_lane_wide (fun x => shl64 (ileaveZeros_const 2 x) 1) 1
      (fun x : Z => x mod 2 ^ 21).
  - morton3_lane_wide (fun x => shl64 (ileaveZeros_const 2 x) 1) 0
      (fun _ : Z => 0).
Qed.

Lemma dileave3_of_z_wide (z : Z) :
  0 <= z < 2 ^ 32 ->
  dileave3 (ileaveZeros_const 2 z) = (0, 0, z mod 2 ^ 22).
Proof.
  intros Hz. unfold dileave3. apply f_equal2; [apply f_equal2 |].
  - morton3_lane_wide (fun x => ileaveZeros_const 2 x) 2 (fun _ : Z => 0).
  - morton3_lane_wide (fun x => ileaveZeros_const 2 x) 1 (fun _ : Z => 0).
  - morton3_lane_wide (fun x => ileaveZeros_const 2 x) 0
      (fun x : Z => x mod 2 ^ 22).
Qed.

(** X13. The precision ceiling of the 3-axis code, exactly: for arbitrary
    32-bit coordinates the round trip returns [x] and [y] cut to their low
    21 bits and [z] cut to its low 22 bits; the higher bits are
    discarded without any error. *)
Theorem morton3_roundtrip_truncates (x y z : Z) :
  0 <= x < 2 ^ 32 -> 0 <= y < 2 ^ 32 -> 0 <= z < 2 ^ 32 ->
  dileave3 (ileave3 x y z) = (x mod 2 ^ 21, y mod 2 ^ 21, z mod 2 ^ 22).
Proof.
  intros Hx Hy Hz. unfold ileave3.
  rewrite !dileave3_lor, dileave3_of_x_wide, dileave3_of_y_wide,
    dileave3_of_z_wide by assumption.
  cbn [triple_lor]. now rewrite !Z.lor_0_r, !Z.lor_0_l.
Qed.

Lemma morton3_roundtrip_truncates_witness :
  0 <= 0xFFFFFFFF < 2 ^ 32 /\ 0 <= 0xFFFFFFFF < 2 ^ 32 /\
  0 <= 0xFFFFFFFF < 2 ^ 32 /\
  dileave3 (ileave3 0xFFFFFFFF 0xFFFFFFFF 0xFFFFFFFF)
  = (0xFFFFFFFF mod 2 ^ 21, 0xFFFFFFFF mod 2 ^ 21, 0xFFFFFFFF mod 2 ^ 22).
Proof.
  split; [lia | split; [lia | split; [lia |]]].
  apply (morton3_roundtrip_truncates 0xFFFFFFFF 0xFFFFFFFF 0xFFFFFFFF); lia.
Defined.

(** * Distribution over bitwise OR *)

(** X14. For every stride below 128 (where the loops of both routines are
    defined), the shift-and-mask interleaver and remover map 0 to 0 and
    distribute over bitwise OR, so a word can be processed piecewise (bit
    by bit, or byte by byte through a table) and the pieces OR-ed
    together. *)
Theorem shift_and_mask_distributes (BITS a b : Z) :
  0 <= BITS < 128 ->
  ileaveZeros_const BITS (Z.lor a b)
  = Z.lor (ileaveZeros_const BITS a) (ileaveZeros_const BITS b) /\
  remIleavedBits_const BITS (Z.lor a b)
  = Z.lor (remIleavedBits_const BITS a) (remIleavedBits_const BITS b) /\
  ileaveZeros_const BITS 0 = 0 /\
  remIleavedBits_const BITS 0 = 0.
Proof.
  intros _.
  destruct (ileaveZeros_const_linear BITS (fun x => x) or_linear_id)
    as [Hi0 Hil].
  destruct (remIleavedBits_const_linear BITS (fun x => x) or_linear_id)
    as [Hr0 Hrl].
  split; [apply Hil | split; [apply Hrl | split; assumption]].
Qed.

Lemma shift_and_mask_distributes_witness :
  0 <= 2 < 128 /\
  ileaveZeros_const 2 (Z.lor 5 8)
  = Z.lor (ileaveZeros_const 2 5) (ileaveZeros_const 2 8) /\
  remIleavedBits_const 2 (Z.lor 5 8)
  = Z.lor (remIleavedBits_const 2 5) (remIleavedBits_const 2 8) /\
  ileaveZeros_const 2 0 = 0 /\
  remIleavedBits_const 2 0 = 0.
Proof.
  split; [lia |]. apply (shift_and_mask_distributes 2 5 8). lia.
Defined.

(** X15. The 3-axis Morton code distributes over bitwise OR in all three
    coordinates at once; in particular
    [ileave3 x y z = ileave3 x 0 0 | ileave3 0 y 0 | ileave3 0 0 z]. *)
Theorem ileave3_distributes (x y z x' y' z' : Z) :
  ileave3 (Z.lor x x') (Z.lor y y') (Z.lor z z')
  = Z.lor (ileave3 x y z) (ileave3 x' y' z') /\
  ileave3 x y z
  = Z.lor (Z.lor (ileave3 x 0 0) (ileave3 0 y 0)) (ileave3 0 0 z).
Proof.
  assert (Hshl : forall s, or_linear (fun v => shl64 (ileaveZeros_const 2 v) s))
    by (intros s; or_linear_lib).
  destruct (ileaveZeros_const_linear 2 (fun v => v) or_linear_id) as [H0 Hl].
  assert (Hs0 : forall s, shl64 (ileaveZeros_const 2 0) s = 0)
    by (intros s; exact (proj1 (Hshl s))).
  assert (Hsl : forall s a b,
             shl64 (ileaveZeros_const 2 (Z.lor a b)) s
             = Z.lor (shl64 (ileaveZeros_const 2 a) s)
                     (shl64 (ileaveZeros_const 2 b) s))
    by (intros s; exact (proj2 (Hshl s))).
  unfold ileave3. split.
  - rewrite !Hsl, Hl. apply Z.bits_inj'. intros p _.
    rewrite !Z.lor_spec. btauto.
  - rewrite !Hs0, H0. now rewrite !Z.lor_0_r, !Z.lor_0_l.
Qed.

(** * The byte planes, further *)

Lemma gather_nonneg (src : Z -> option Z) (x : Z) (w : nat) :
  0 <= gather w src x.
Proof.
  induction w as [| w IH]; cbn [gather]; [lia |].
  apply Z.lor_nonneg. split; [assumption |].
  destruct (match src (Z.of_nat w) with
            | Some k => Z.testbit x k
            | None => false
            end); [apply Z.pow_nonneg |]; lia.
Qed.

Lemma ileaveBytes_src_index (count p k : Z) :
  0 <= p -> ileaveBytes_src count p = Some k -> 0 <= k < 8 * count.
Proof.
  intros Hp. unfold ileaveBytes_src.
  destruct (Z.ltb_spec p (8 * count)) as [Hlt | Hge]; [| discriminate].
  intros Hsrc.
  assert (Hk : k = 8 * (p mod count) + p / count) by congruence.
  assert (Hc : 0 < count) by lia.
  pose proof (Z.mod_pos_bound p count Hc) as Hmod.
  assert (0 <= p / count) by (apply Z.div_pos; lia).
  assert (p / count < 8) by (apply Z.div_lt_upper_bound; lia).
  lia.
Qed.

(** X16. [ileaveBytes] reads the low [count] lanes only and writes the low
    [8 * count] bits only: the result is below [2^(8 * count)], and it
    does not change when the lanes at index [count] and above are
    cleared. *)
Theorem ileaveBytes_low_lanes (bytes count : Z) :
  0 <= count <= 8 ->
  0 <= bytes < 2 ^ 64 ->
  exists r,
    ileaveBytes bytes count = Returned r /\
    0 <= r < 2 ^ (8 * count) /\
    ileaveBytes (bytes mod 2 ^ (8 * count)) count = Returned r.
Proof.
  intros Hc Hb. exists (gather 64 (ileaveBytes_src count) bytes).
  assert (Hlow : 0 <= bytes mod 2 ^ (8 * count) < 2 ^ 64).
  { pose proof (Z.mod_pos_bound bytes (2 ^ (8 * count))
                  ltac:(apply Z.pow_pos_nonneg; lia)) as Hm.
    assert (2 ^ (8 * count) <= 2 ^ 64) by (apply Z.pow_le_mono_r; lia).
    lia. }
  rewrite !ileaveBytes_returns, !ileaveBytes_const_gather by assumption.
  split; [reflexivity |]. split.
  - split; [apply gather_nonneg |].
    apply word_bound; [lia | apply gather_nonneg |].
    intros p Hp. rewrite testbit_gather by lia. unfold ileaveBytes_src.
    destruct (Z.ltb_spec p (8 * count)); [lia | apply andb_false_r].
  - f_equal. apply Z.bits_inj'. intros p Hp.
    rewrite !testbit_gather by assumption. f_equal.
    destruct (ileaveBytes_src count p) as [k |] eqn:Hsrc; [| reflexivity].
    pose proof (ileaveBytes_src_index count p k Hp Hsrc) as Hk.
    rewrite testbit_mod_pow2 by lia.
    destruct (Z.ltb_spec k (8 * count)); [reflexivity | lia].
Qed.

Lemma ileaveBytes_low_lanes_witness :
  0 <= 2 <= 8 /\ 0 <= 0xAABBCCDD < 2 ^ 64 /\
  exists r,
    ileaveBytes 0xAABBCCDD 2 = Returned r /\
    0 <= r < 2 ^ (8 * 2) /\
    ileaveBytes (0xAABBCCDD mod 2 ^ (8 * 2)) 2 = Returned r.
Proof.
  split; [lia | split; [lia |]].
  apply (ileaveBytes_low_lanes 0xAABBCCDD 2); lia.
Defined.

Lemma dileaveBytes_loop_linear (COUNT : Z) (n : nat) :
  forall (i : Z) (r il : Z -> Z),
    or_linear r -> or_linear il ->
    or_linear (fun x => dileaveBytes_loop COUNT n i (r x) (il x)).
Proof.
  induction n as [| n IH]; intros i r il Hr Hil; cbn [dileaveBytes_loop].
  - assumption.
  - apply (IH (i + 1)
             (fun x => shl64 (Z.lor (r x)
                                (remIleavedBits_const (COUNT - 1)
                                   (Z.shiftr (il x) i))) 8) il);
      [or_linear_lib | assumption].
Qed.

Lemma dileaveBytes_const_linear (COUNT : Z) (f : Z -> Z) :
  or_linear f -> or_linear (fun x => dileaveBytes_const COUNT (f x)).
Proof.
  intros Hf. unfold dileaveBytes_const. destruct (COUNT =? 0).
  - apply or_linear_zero.
  - apply (dileaveBytes_loop_linear COUNT _ 0 (fun _ => 0) f);
      [apply or_linear_zero | assumption].
Qed.

Lemma byte_roundtrip_gather (count bytes : Z) :
  0 <= count <= 8 ->
  0 <= bytes < 2 ^ 64 ->
  dileaveBytes_const count (ileaveBytes_const count bytes)
  = gather 64 (byte_roundtrip_src count) bytes.
Proof.
  intros Hc Hb. rewrite ileaveBytes_const_gather by assumption.
  revert bytes Hb.
  apply (or_linear_check 64
           (fun b => dileaveBytes_const count
                       (gather 64 (ileaveBytes_src count) b))
           (gather 64 (byte_roundtrip_src count))).
  - apply dileaveBytes_const_linear, gather_linear.
  - apply gather_linear.
  - pose proof (lane_count_cases count Hc) as Hin. cbn [In] in Hin.
    repeat (destruct Hin as [<- | Hin]; [vm_compute; reflexivity |]).
    destruct Hin.
Qed.

Lemma byte_roundtrip_src_lane (count i j : Z) :
  0 <= i < count -> 0 <= j < 8 ->
  byte_roundtrip_src count (8 * (count - i) + j) = Some (8 * i + j).
Proof.
  intros Hi Hj. unfold byte_roundtrip_src.
  assert (Hdiv : (8 * (count - i) + j) / 8 = count - i)
    by (Z.div_mod_to_equations; lia).
  assert (Hmod : (8 * (count - i) + j) mod 8 = j)
    by (Z.div_mod_to_equations; lia).
  rewrite Hdiv, Hmod.
  destruct (Z.leb_spec 8 (8 * (count - i) + j)); [| lia].
  destruct (Z.leb_spec (count - i) count); [| lia].
  cbn [andb]. f_equal. lia.
Qed.

(** X17. What the byte-plane round trip returns on the code: for a lane
    count in 0..8, [dileave_bytes(ileaveBytes(bytes, count), count)]
    holds lane [i] of [bytes] in byte [count - i], as far as that byte
    index is at most 7, and has no other bit set.  The lanes come back in
    reverse order, one byte up; with 8 lanes, lane 0 is lost. *)
Theorem byte_plane_roundtrip_lanes (bytes count : Z) :
  0 <= count <= 8 ->
  0 <= bytes < 2 ^ 64 ->
  exists r,
    bind (ileaveBytes bytes count) (fun m => dileave_bytes m count)
    = Returned r /\
    (forall i j, 0 <= i < count -> 0 <= j < 8 -> count - i <= 7 ->
       Z.testbit r (8 * (count - i) + j) = Z.testbit bytes (8 * i + j)) /\
    (forall p, 0 <= p -> Z.testbit r p = true ->
       exists i j, 0 <= i < count /\ 0 <= j < 8 /\ count - i <= 7 /\
                   p = 8 * (count - i) + j).
Proof.
  intros Hc Hb. exists (gather 64 (byte_roundtrip_src count) bytes).
  rewrite ileaveBytes_returns by assumption. cbn [bind].
  rewrite dileave_bytes_returns, byte_roundtrip_gather by assumption.
  split; [reflexivity |]. split.
  - intros i j Hi Hj Htop. rewrite testbit_gather by lia.
    rewrite byte_roundtrip_src_lane by assumption.
    destruct (Z.ltb_spec (8 * (count - i) + j) (Z.of_nat 64));
      [reflexivity | lia].
  - intros p Hp Hset. rewrite testbit_gather in Hset by assumption.
    apply andb_true_iff in Hset. destruct Hset as [Hlt Hsrc].
    apply Z.ltb_lt in Hlt. unfold byte_roundtrip_src in Hsrc.
    destruct (Z.leb_spec 8 p) as [H8 | H8]; [| discriminate].
    destruct (Z.leb_spec (p / 8) count) as [Hdc | Hdc]; [| discriminate].
    exists (count - p / 8), (p mod 8).
    change (Z.of_nat 64) with 64 in Hlt.
    Z.div_mod_to_equations. lia.
Qed.

Lemma byte_plane_roundtrip_lanes_witness :
  0 <= 2 <= 8 /\ 0 <= 0x0201 < 2 ^ 64 /\
  exists r,
    bind (ileaveBytes 0x0201 2) (fun m => dileave_bytes m 2) = Returned r /\
    (forall i j, 0 <= i < 2 -> 0 <= j < 8 -> 2 - i <= 7 ->
       Z.testbit r (8 * (2 - i) + j) = Z.testbit 0x0201 (8 * i + j)) /\
    (forall p, 0 <= p -> Z.testbit r p = true ->
       exists i j, 0 <= i < 2 /\ 0 <= j < 8 /\ 2 - i <= 7 /\
                   p = 8 * (2 - i) + j).
Proof.
  split; [lia | split; [lia |]].
  apply (byte_plane_roundtrip_lanes 0x0201 2); lia.
Defined.

(** X18. Byte-plane identity: for every lane count in 0..8 the all-zero
    word interleaves and de-interleaves to 0, and with no lane at all
    every input does. *)
Theorem byte_plane_zero (bytes count : Z) :
  0 <= count <= 8 ->
  ileaveBytes 0 count = Returned 0 /\
  dileave_bytes 0 count = Returned 0 /\
  ileaveBytes bytes 0 = Returned 0 /\
  dileave_bytes bytes 0 = Returned 0.
Proof.
  intros Hc.
  rewrite ileaveBytes_returns, dileave_bytes_returns by assumption.
  rewrite (proj1 (ileaveBytes_const_linear count)).
  rewrite (proj1 (dileaveBytes_const_linear count (fun x => x) or_linear_id)).
  repeat split.
Qed.

Lemma byte_plane_zero_witness :
  0 <= 5 <= 8 /\
  ileaveBytes 0 5 = Returned 0 /\
  dileave_bytes 0 5 = Returned 0 /\
  ileaveBytes 0xFF 0 = Returned 0 /\
  dileave_bytes 0xFF 0 = Returned 0.
Proof. split; [lia |]. apply (byte_plane_zero 0xFF 5). lia. Defined.
